(** * The S3 event handler of [lambda/handler.py]

    The repository holds one function, [lambda_handler], which prints the
    JSON text of its [event] argument and returns a fixed dictionary.  The
    function leans on two library calls, [json.dumps] and [print]; both are
    embedded here the way CPython's [json/encoder.py] and the built-in
    [print] behave, so that the handler itself can be transcribed line by
    line.  [json.loads] ([json/decoder.py], [json/scanner.py]) is embedded as
    well: it is the reader against which the logged text is compared.

    Conventions.
    - A Python [str] is a list of code points ([pystr]).
    - A Python object is the tree of its value ([pyval]); object identity is
      not represented, so a container cannot contain itself.
    - An exception is a value of [exn]; a call that may raise returns
      [exn + A].
    - Statements run in the monad [M] over [world], which carries the text
      written to standard output and the module's global names.
    - [float.__repr__] and [float(str)] are C primitives outside the [json]
      package; they are the Section variables [float_repr], [float_of_str].
    - Interpreter resource limits (recursion depth, the digit limit of
      [int.__repr__]) are not represented. *)

From Stdlib Require Import ZArith List String Ascii Bool Lia.
From Stdlib Require Import Floats.SpecFloat.
Import ListNotations.

Local Open Scope Z_scope.
Local Open Scope list_scope.

(** ** Python strings *)

Definition pystr := list Z.

Definition ord (a : ascii) : Z := Z.of_N (N_of_ascii a).

Fixpoint lit (s : string) : pystr :=
  match s with
  | EmptyString => []
  | String a s' => ord a :: lit s'
  end.
Arguments lit s%_string.

Definition quote : Z := 34.
Definition backslash : Z := 92.

(** A literal between double quotes. *)
Definition quoted (s : string) : pystr := quote :: lit s ++ [quote].
Arguments quoted s%_string.

(** [s * n] for a string [s]. *)
Fixpoint str_mul (s : pystr) (n : nat) : pystr :=
  match n with
  | O => []
  | S n' => s ++ str_mul s n'
  end.

(** ** Exceptions and the error monad *)

Inductive exn : Type :=
| TypeError (msg : pystr)
| ValueError (msg : pystr)
| JSONDecodeError (msg : pystr)
| StopIteration
| RecursionError.

Definition res (A : Type) : Type := (exn + A)%type.

Definition rbind {A B : Type} (r : res A) (k : A -> res B) : res B :=
  match r with
  | inl e => inl e
  | inr a => k a
  end.

Declare Scope res_scope.
Delimit Scope res_scope with res.
Notation "x <- r ;; k" := (rbind r (fun x => k))
  (at level 61, r at next level, right associativity) : res_scope.
Notation "' p <- r ;; k" := (rbind r (fun x => let p := x in k))
  (at level 61, p pattern, r at next level, right associativity) : res_scope.

(** ** Python values *)

#[warnings="-register-all"]
Inductive pyval : Type :=
| PNone
| PBool (b : bool)
| PInt (n : Z)
| PFloat (x : spec_float)
| PStr (s : pystr)
| PList (items : list pyval)
| PTuple (items : list pyval)
| PDict (items : list (pyval * pyval))
| PObject (cls : pystr).

(** ** [json.encoder] *)

Module Encoder.

(** [int.__repr__]: the decimal digits, most significant first. *)
Fixpoint nat_digits (fuel : nat) (n : Z) (acc : pystr) : pystr :=
  match fuel with
  | O => acc
  | S f =>
      let acc' := (48 + n mod 10) :: acc in
      if n <? 10 then acc' else nat_digits f (n / 10) acc'
  end.

Definition digit_fuel (n : Z) : nat := S (Z.to_nat (Z.log2 n)).

Definition int_repr (n : Z) : pystr :=
  if n <? 0 then 45 :: nat_digits (digit_fuel (- n)) (- n) []
  else nat_digits (digit_fuel n) n [].

Definition hexdigit (d : Z) : Z :=
  if d <? 10 then 48 + d else 87 + d.

(** ['{0:04x}'.format(n)] for [n < 0x10000], its range at both call sites. *)
Definition format_04x (n : Z) : pystr :=
  [ hexdigit (Z.land (Z.shiftr n 12) 15);
    hexdigit (Z.land (Z.shiftr n 8) 15);
    hexdigit (Z.land (Z.shiftr n 4) 15);
    hexdigit (Z.land n 15) ].

Definition escape_u (n : Z) : pystr := backslash :: 117 :: format_04x n.

(** [ESCAPE_ASCII]: a backslash, a double quote, or anything outside the
    printable ASCII range from space to tilde, is handed to [replace]. *)
Definition needs_escape (c : Z) : bool :=
  (c =? backslash) || (c =? quote) || negb ((32 <=? c) && (c <=? 126)).

(** [replace] of [py_encode_basestring_ascii]: [ESCAPE_DCT] first, then the
    [KeyError] branch. *)
Definition replace (c : Z) : pystr :=
  if c =? backslash then [backslash; backslash]
  else if c =? quote then [backslash; quote]
  else if c =? 8 then [backslash; 98]
  else if c =? 12 then [backslash; 102]
  else if c =? 10 then [backslash; 110]
  else if c =? 13 then [backslash; 114]
  else if c =? 9 then [backslash; 116]
  else if c <? 32 then escape_u c
  else if c <? 65536 then escape_u c
  else
    let n := c - 65536 in
    let s1 := Z.lor 55296 (Z.land (Z.shiftr n 10) 1023) in
    let s2 := Z.lor 56320 (Z.land n 1023) in
    escape_u s1 ++ escape_u s2.

Definition escape_char (c : Z) : pystr :=
  if needs_escape c then replace c else [c].

Definition encode_basestring_ascii (s : pystr) : pystr :=
  quote :: flat_map escape_char s ++ [quote].

Section WithFloat.

(** [float.__repr__] on a finite float. *)
Variable float_repr : spec_float -> pystr.

(** [floatstr] of [JSONEncoder.iterencode], with [allow_nan=True]. *)
Definition floatstr (o : spec_float) : pystr :=
  match o with
  | S754_nan => lit "NaN"
  | S754_infinity false => lit "Infinity"
  | S754_infinity true => lit "-Infinity"
  | _ => float_repr o
  end.

(** The key conversion at the head of the loop of [_iterencode_dict]
    ([skipkeys=False]). *)
Definition key_str (key : pyval) : res pystr :=
  match key with
  | PStr s => inr s
  | PFloat x => inr (floatstr x)
  | PBool true => inr (lit "true")
  | PBool false => inr (lit "false")
  | PNone => inr (lit "null")
  | PInt n => inr (int_repr n)
  | PList _ => inl (TypeError (lit "keys must be str, int, float, bool or None, not list"))
  | PTuple _ => inl (TypeError (lit "keys must be str, int, float, bool or None, not tuple"))
  | PDict _ => inl (TypeError (lit "keys must be str, int, float, bool or None, not dict"))
  | PObject cls => inl (TypeError (lit "keys must be str, int, float, bool or None, not " ++ cls))
  end.

(** The encoder's settings: [indent] as passed to [json.dumps]; the item
    separator is [','] when [indent] is given and [', '] otherwise; the key
    separator is [': ']. *)
Variable indent : option nat.

Definition item_separator : pystr :=
  match indent with
  | Some _ => [44]
  | None => [44; 32]
  end.

Definition key_separator : pystr := [58; 32].

(** ['\n' + _indent * level] when [indent] is given, nothing otherwise. *)
Definition newline_indent (level : nat) : pystr :=
  match indent with
  | Some n => 10 :: str_mul (str_mul [32] n) level
  | None => []
  end.

(** The [for value in lst] loop: every chunk but the first is preceded by
    the separator. *)
Fixpoint encode_items (enc : pyval -> res pystr) (separator : pystr)
    (first : bool) (lst : list pyval) : res pystr :=
  match lst with
  | [] => inr []
  | value :: lst' =>
      (chunk <- enc value ;;
       rest <- encode_items enc separator false lst' ;;
       inr ((if first then [] else separator) ++ chunk ++ rest))%res
  end.

(** The [for key, value in items] loop. *)
Fixpoint encode_pairs (enc : pyval -> res pystr) (separator : pystr)
    (first : bool) (dct : list (pyval * pyval)) : res pystr :=
  match dct with
  | [] => inr []
  | (key, value) :: dct' =>
      (k <- key_str key ;;
       chunk <- enc value ;;
       rest <- encode_pairs enc separator false dct' ;;
       inr ((if first then [] else separator)
            ++ encode_basestring_ascii k ++ key_separator ++ chunk ++ rest))%res
  end.

(** [_iterencode], with [_iterencode_list] and [_iterencode_dict] as its
    container branches; the chunks are already joined. *)
Fixpoint iterencode (o : pyval) (level : nat) : res pystr :=
  match o with
  | PStr s => inr (encode_basestring_ascii s)
  | PNone => inr (lit "null")
  | PBool true => inr (lit "true")
  | PBool false => inr (lit "false")
  | PInt n => inr (int_repr n)
  | PFloat x => inr (floatstr x)
  | PList lst | PTuple lst =>
      match lst with
      | [] => inr (lit "[]")
      | _ =>
          (body <- encode_items (fun v => iterencode v (S level))
                     (item_separator ++ newline_indent (S level)) true lst ;;
           inr ([91] ++ newline_indent (S level) ++ body
                ++ newline_indent level ++ [93]))%res
      end
  | PDict dct =>
      match dct with
      | [] => inr (lit "{}")
      | _ =>
          (body <- encode_pairs (fun v => iterencode v (S level))
                     (item_separator ++ newline_indent (S level)) true dct ;;
           inr ([123] ++ newline_indent (S level) ++ body
                ++ newline_indent level ++ [125]))%res
      end
  | PObject cls =>
      inl (TypeError (lit "Object of type " ++ cls ++ lit " is not JSON serializable"))
  end.

(** [JSONEncoder.encode]. *)
Definition encode (o : pyval) : res pystr :=
  match o with
  | PStr s => inr (encode_basestring_ascii s)
  | _ => iterencode o 0
  end.

End WithFloat.

End Encoder.

(** ** [json.decoder] and [json.scanner] *)

(** The scanner works on an index into the text; here the state is the text
    that remains from that index on, and an error keeps its message but not
    its position. *)
Module Decoder.

(** [WHITESPACE_STR]: space, tab, newline, carriage return. *)
Definition is_ws (c : Z) : bool :=
  (c =? 32) || (c =? 9) || (c =? 10) || (c =? 13).

(** [WHITESPACE.match(s, end).end()]. *)
Fixpoint skip_ws (s : pystr) : pystr :=
  match s with
  | c :: s' => if is_ws c then skip_ws s' else s
  | [] => []
  end.

Fixpoint str_eqb (a b : pystr) : bool :=
  match a, b with
  | [], [] => true
  | x :: a', y :: b' => (x =? y) && str_eqb a' b'
  | _, _ => false
  end.

(** [s.startswith(p)], giving what follows the prefix. *)
Fixpoint strip_prefix (p s : pystr) : option pystr :=
  match p, s with
  | [], _ => Some s
  | x :: p', y :: s' => if x =? y then strip_prefix p' s' else None
  | _ :: _, [] => None
  end.

(** One character of [HEXDIGITS], as [int(_, 16)] reads it. *)
Definition hexval (c : Z) : option Z :=
  if (48 <=? c) && (c <=? 57) then Some (c - 48)
  else if (97 <=? c) && (c <=? 102) then Some (c - 87)
  else if (65 <=? c) && (c <=? 70) then Some (c - 55)
  else None.

Definition invalid_uXXXX : exn := JSONDecodeError (lit "Invalid \uXXXX escape").

(** [_decode_uXXXX] on the four characters after the [u]. *)
Definition decode_hex4 (h1 h2 h3 h4 : Z) : res Z :=
  match hexval h1, hexval h2, hexval h3, hexval h4 with
  | Some a, Some b, Some c, Some d => inr (((a * 16 + b) * 16 + c) * 16 + d)
  | _, _, _, _ => inl invalid_uXXXX
  end.

(** The [BACKSLASH] table. *)
Definition backslash_char (esc : Z) : option Z :=
  if esc =? quote then Some quote
  else if esc =? backslash then Some backslash
  else if esc =? 47 then Some 47
  else if esc =? 98 then Some 8
  else if esc =? 102 then Some 12
  else if esc =? 110 then Some 10
  else if esc =? 114 then Some 13
  else if esc =? 116 then Some 9
  else None.

Definition unterminated : exn :=
  JSONDecodeError (lit "Unterminated string starting at").

(** [scanstring] with [strict=True], entered after the opening quote.
    [STRINGCHUNK] takes the characters up to the first quote, backslash or
    control character; the loop below takes them one at a time. *)
Fixpoint scanstring (s : pystr) (chunks : pystr) : res (pystr * pystr) :=
  match s with
  | [] => inl unterminated
  | c :: s1 =>
      if c =? quote then inr (chunks, s1)
      else if c =? backslash then
        match s1 with
        | [] => inl unterminated
        | esc :: s2 =>
            if negb (esc =? 117) then
              match backslash_char esc with
              | None => inl (JSONDecodeError (lit "Invalid \escape"))
              | Some char => scanstring s2 (chunks ++ [char])
              end
            else
              match s2 with
              | h1 :: h2 :: h3 :: h4 :: s3 =>
                  match decode_hex4 h1 h2 h3 h4 with
                  | inl e => inl e
                  | inr uni =>
                      if (55296 <=? uni) && (uni <=? 56319) then
                        match s3 with
                        | b :: u :: g1 :: g2 :: g3 :: g4 :: s4 =>
                            if (b =? backslash) && (u =? 117) then
                              match decode_hex4 g1 g2 g3 g4 with
                              | inl e => inl e
                              | inr uni2 =>
                                  if (56320 <=? uni2) && (uni2 <=? 57343) then
                                    scanstring s4
                                      (chunks ++
                                       [65536 + Z.lor (Z.shiftl (uni - 55296) 10)
                                                      (uni2 - 56320)])
                                  else scanstring s3 (chunks ++ [uni])
                              end
                            else scanstring s3 (chunks ++ [uni])
                        | _ =>
                            match strip_prefix [backslash; 117] s3 with
                            | Some _ => inl invalid_uXXXX
                            | None => scanstring s3 (chunks ++ [uni])
                            end
                        end
                      else scanstring s3 (chunks ++ [uni])
                  end
              | _ => inl invalid_uXXXX
              end
        end
      else if c <=? 31 then
        inl (JSONDecodeError (lit "Invalid control character at"))
      else scanstring s1 (chunks ++ [c])
  end.

Definition is_digit (c : Z) : bool := (48 <=? c) && (c <=? 57).

(** The longest run of digits at the head of [s], and what follows. *)
Fixpoint span_digits (s : pystr) : pystr * pystr :=
  match s with
  | c :: s' =>
      if is_digit c then let (ds, r) := span_digits s' in (c :: ds, r)
      else ([], s)
  | [] => ([], [])
  end.

(** [NUMBER_RE], group 1: an optional minus, then a zero or a digit run
    that does not start with zero. *)
Definition match_integer (s : pystr) : option (pystr * pystr) :=
  let (sign, s1) :=
    match s with
    | c :: s' => if c =? 45 then ([45], s') else ([], s)
    | [] => ([], [])
    end in
  match s1 with
  | c :: s2 =>
      if c =? 48 then Some (sign ++ [48], s2)
      else if is_digit c then
        let (ds, r) := span_digits s2 in Some (sign ++ c :: ds, r)
      else None
  | [] => None
  end.

(** Group 2: a point and at least one digit. *)
Definition match_frac (s : pystr) : option (pystr * pystr) :=
  match s with
  | c :: s' =>
      if c =? 46 then
        match span_digits s' with
        | ([], _) => None
        | (ds, r) => Some (c :: ds, r)
        end
      else None
  | [] => None
  end.

(** Group 3: [e] or [E], an optional sign and at least one digit. *)
Definition match_exp (s : pystr) : option (pystr * pystr) :=
  match s with
  | c :: s1 =>
      if (c =? 101) || (c =? 69) then
        let (sign, s2) :=
          match s1 with
          | d :: s' => if (d =? 45) || (d =? 43) then ([d], s') else ([], s1)
          | [] => ([], [])
          end in
        match span_digits s2 with
        | ([], _) => None
        | (ds, r) => Some (c :: sign ++ ds, r)
        end
      else None
  | [] => None
  end.

(** [int(s)] on a text matched by group 1. *)
Definition int_of_str (s : pystr) : Z :=
  let value := fold_left (fun acc d => acc * 10 + (d - 48)) in
  match s with
  | c :: ds => if c =? 45 then - value ds 0 else value s 0
  | [] => 0
  end.

Definition expecting_value {A : Type} (r : res A) : res A :=
  match r with
  | inl StopIteration => inl (JSONDecodeError (lit "Expecting value"))
  | _ => r
  end.

Definition expecting_comma : exn :=
  JSONDecodeError (lit "Expecting ',' delimiter").

Definition expecting_name : exn :=
  JSONDecodeError (lit "Expecting property name enclosed in double quotes").

(** The [while True] loop of [JSONArray]; [n] bounds the iterations, each
    of which consumes some of the text. *)
Fixpoint array_loop (scan_once : pystr -> res (pyval * pystr)) (n : nat)
    (s : pystr) (values : list pyval) : res (pyval * pystr) :=
  match n with
  | O => inl RecursionError
  | S n' =>
      ('(value, s1) <- expecting_value (scan_once s) ;;
       let values := values ++ [value] in
       match skip_ws s1 with
       | c :: s2 =>
           if c =? 93 then inr (PList values, s2)
           else if c =? 44 then array_loop scan_once n' (skip_ws s2) values
           else inl expecting_comma
       | [] => inl expecting_comma
       end)%res
  end.

(** [JSONArray], entered after the opening bracket. *)
Definition JSONArray (scan_once : pystr -> res (pyval * pystr)) (s : pystr)
    : res (pyval * pystr) :=
  match skip_ws s with
  | c :: s1 =>
      if c =? 93 then inr (PList [], s1)
      else array_loop scan_once (List.length s) (skip_ws s) []
  | [] => array_loop scan_once 1 [] []
  end.

(** [dict(pairs)]: a later pair with an equal key replaces the value and
    keeps the place of the earlier one. *)
Fixpoint dict_set (d : list (pystr * pyval)) (k : pystr) (v : pyval)
    : list (pystr * pyval) :=
  match d with
  | [] => [(k, v)]
  | (k', v') :: d' =>
      if str_eqb k' k then (k', v) :: d' else (k', v') :: dict_set d' k v
  end.

Definition dict_of_pairs (pairs : list (pystr * pyval)) : pyval :=
  PDict (map (fun kv => (PStr (fst kv), snd kv))
             (fold_left (fun d kv => dict_set d (fst kv) (snd kv)) pairs [])).

(** The [while True] loop of [JSONObject], entered after the quote that
    opens a key. *)
Fixpoint object_loop (scan_once : pystr -> res (pyval * pystr)) (n : nat)
    (s : pystr) (pairs : list (pystr * pyval)) : res (pyval * pystr) :=
  match n with
  | O => inl RecursionError
  | S n' =>
      ('(key, s1) <- scanstring s [] ;;
       match skip_ws s1 with
       | c :: s2 =>
           if c =? 58 then
             ('(value, s3) <- expecting_value (scan_once (skip_ws s2)) ;;
              let pairs := pairs ++ [(key, value)] in
              match skip_ws s3 with
              | d :: s4 =>
                  if d =? 125 then inr (dict_of_pairs pairs, s4)
                  else if d =? 44 then
                    match skip_ws s4 with
                    | q :: s5 =>
                        if q =? quote then object_loop scan_once n' s5 pairs
                        else inl expecting_name
                    | [] => inl expecting_name
                    end
                  else inl expecting_comma
              | [] => inl expecting_comma
              end)
           else inl (JSONDecodeError (lit "Expecting ':' delimiter"))
       | [] => inl (JSONDecodeError (lit "Expecting ':' delimiter"))
       end)%res
  end.

(** [JSONObject], entered after the opening brace. *)
Definition JSONObject (scan_once : pystr -> res (pyval * pystr)) (s : pystr)
    : res (pyval * pystr) :=
  match skip_ws s with
  | c :: s1 =>
      if c =? quote then object_loop scan_once (List.length s) s1 []
      else if c =? 125 then inr (PDict [], s1)
      else inl expecting_name
  | [] => inl expecting_name
  end.

Section WithFloat.

(** [float(s)] on a text matched by [NUMBER_RE]. *)
Variable float_of_str : pystr -> spec_float.

Definition opt_str (o : option (pystr * pystr)) (s : pystr) : pystr * pystr :=
  match o with
  | Some (m, r) => (m, r)
  | None => ([], s)
  end.

(** The number branch of [_scan_once]: [match_number], then [parse_float]
    when a fraction or an exponent was matched and [parse_int] otherwise. *)
Definition scan_number (s : pystr) : option (pyval * pystr) :=
  match match_integer s with
  | None => None
  | Some (integer, s1) =>
      let (frac, s2) := opt_str (match_frac s1) s1 in
      let (exp, s3) := opt_str (match_exp s2) s2 in
      match frac ++ exp with
      | [] => Some (PInt (int_of_str integer), s3)
      | _ => Some (PFloat (float_of_str (integer ++ frac ++ exp)), s3)
      end
  end.

(** The branches of [_scan_once] that follow the number match. *)
Definition scan_constant (s : pystr) : res (pyval * pystr) :=
  match strip_prefix (lit "NaN") s with
  | Some r => inr (PFloat S754_nan, r)
  | None =>
      match strip_prefix (lit "Infinity") s with
      | Some r => inr (PFloat (S754_infinity false), r)
      | None =>
          match strip_prefix (lit "-Infinity") s with
          | Some r => inr (PFloat (S754_infinity true), r)
          | None => inl StopIteration
          end
      end
  end.

Definition scan_atom (s : pystr) : res (pyval * pystr) :=
  match strip_prefix (lit "null") s with
  | Some r => inr (PNone, r)
  | None =>
      match strip_prefix (lit "true") s with
      | Some r => inr (PBool true, r)
      | None =>
          match strip_prefix (lit "false") s with
          | Some r => inr (PBool false, r)
          | None =>
              match scan_number s with
              | Some vr => inr vr
              | None => scan_constant s
              end
          end
      end
  end.

(** [_scan_once] of [py_make_scanner]; [fuel] bounds the nesting of
    containers, and running out of it is the interpreter's recursion
    limit. *)
Fixpoint scan_once (fuel : nat) (s : pystr) : res (pyval * pystr) :=
  match fuel with
  | O => inl RecursionError
  | S f =>
      match s with
      | [] => inl StopIteration
      | nextchar :: s1 =>
          if nextchar =? quote then
            ('(str, r) <- scanstring s1 [] ;; inr (PStr str, r))%res
          else if nextchar =? 123 then JSONObject (scan_once f) s1
          else if nextchar =? 91 then JSONArray (scan_once f) s1
          else scan_atom s
      end
  end.

(** [JSONDecoder.decode]; a text of [n] characters nests at most [n]
    containers. *)
Definition decode (s : pystr) : res pyval :=
  ('(obj, r) <- expecting_value (scan_once (S (List.length s)) (skip_ws s)) ;;
   match skip_ws r with
   | [] => inr obj
   | _ :: _ => inl (JSONDecodeError (lit "Extra data"))
   end)%res.

End WithFloat.

End Decoder.

Import Encoder Decoder.

(** ** The [json] package's entry points *)

(** [json.dumps(obj, indent=indent)]: with every other keyword left at its
    default, this is [JSONEncoder(indent=indent).encode(obj)]. *)
Definition json_dumps (float_repr : spec_float -> pystr) (indent : option nat)
    (obj : pyval) : res pystr :=
  Encoder.encode float_repr indent obj.

(** [json.loads(s)] for a [str]: a leading byte-order mark is refused, then
    [JSONDecoder().decode(s)]. *)
Definition json_loads (float_of_str : pystr -> spec_float) (s : pystr)
    : res pyval :=
  match Decoder.strip_prefix [65279] s with
  | Some _ =>
      inl (JSONDecodeError (lit "Unexpected UTF-8 BOM (decode using utf-8-sig)"))
  | None => Decoder.decode float_of_str s
  end.

(** ** The interpreter state and the statement monad *)

(** [stdout] holds, oldest first, the text written by each [print] call;
    [globals] is the module's global namespace. *)
Record world : Type := mkWorld {
  stdout : list pystr;
  globals : list (pystr * pyval)
}.

Definition M (A : Type) : Type := world -> res A * world.

Definition ret {A : Type} (a : A) : M A := fun w => (inr a, w).

Definition bind {A B : Type} (m : M A) (k : A -> M B) : M B :=
  fun w =>
    match m w with
    | (inl e, w') => (inl e, w')
    | (inr a, w') => k a w'
    end.

(** A call that may raise and touches nothing. *)
Definition call {A : Type} (r : res A) : M A := fun w => (r, w).

Declare Scope stmt_scope.
Delimit Scope stmt_scope with stmt.
Notation "x <- m ;; k" := (bind m (fun x => k))
  (at level 61, m at next level, right associativity) : stmt_scope.
Notation "m ;; k" := (bind m (fun _ => k))
  (at level 61, right associativity) : stmt_scope.

(** [str(o)] for the objects [print] is given here: a [str] is itself. *)
Definition str_join (sep : pystr) (args : list pystr) : pystr :=
  match args with
  | [] => []
  | a :: args' => a ++ flat_map (fun b => sep ++ b) args'
  end.

(** [print] of several strings: the arguments separated by a space and ended by a
    newline, written to standard output. *)
Definition print (args : list pystr) : M unit :=
  fun w => (inr tt, mkWorld (stdout w ++ [str_join [32] args ++ [10]]) (globals w)).

(** ** [lambda/handler.py] *)

Section Handler.

Variable float_repr : spec_float -> pystr.

(** Line 7: [print] of the label and of [json.dumps(event, indent=2)]; the
    argument is evaluated before [print] is called. *)
Definition log_event (event : pyval) : M unit :=
  (text <- call (json_dumps float_repr (Some 2%nat) event) ;;
   print [lit "Received S3 event:"; text])%stmt.

(** Lines 9-12: the [return] statement. *)
Definition success_response : M pyval :=
  (body <- call (json_dumps float_repr None (PStr (lit "Success"))) ;;
   ret (PDict [ (PStr (lit "statusCode"), PInt 200);
                (PStr (lit "body"), PStr body) ]))%stmt.

Definition lambda_handler (event context : pyval) : M pyval :=
  (log_event event ;;
   success_response)%stmt.

End Handler.

(** ** Value domains *)

Definition is_str (v : pyval) : bool :=
  match v with
  | PStr _ => true
  | _ => false
  end.

(** The JSON value domain: null, booleans, numbers, strings, sequences of
    such values, and mappings from strings to such values. *)
Fixpoint json_value (v : pyval) : bool :=
  match v with
  | PNone | PBool _ | PInt _ | PFloat _ | PStr _ => true
  | PList lst | PTuple lst => forallb json_value lst
  | PDict dct =>
      forallb (fun kv => match kv with (k, x) => is_str k && json_value x end) dct
  | PObject _ => false
  end.

(** Surrogate code points. *)
Definition is_high (c : Z) : bool := (55296 <=? c) && (c <=? 56319).
Definition is_low (c : Z) : bool := (56320 <=? c) && (c <=? 57343).

(** A string whose code points lie in the Unicode range and in which no
    high surrogate is directly followed by a low surrogate. *)
Fixpoint str_ok (s : pystr) : bool :=
  match s with
  | [] => true
  | c :: s' =>
      (0 <=? c) && (c <=? 1114111)
      && negb (is_high c && match s' with
                            | c' :: _ => is_low c'
                            | [] => false
                            end)
      && str_ok s'
  end.

Definition key_of (kv : pyval * pyval) : pystr :=
  match fst kv with
  | PStr k => k
  | _ => []
  end.

Fixpoint distinct (ks : list pystr) : bool :=
  match ks with
  | [] => true
  | k :: ks' => negb (existsb (str_eqb k) ks') && distinct ks'
  end.

(** The values that [json.loads] gives back unchanged: no float, no tuple,
    no object of another class, strings as in [str_ok], and dictionaries
    whose keys are strings and pairwise different. *)
Fixpoint plain_json (v : pyval) : bool :=
  match v with
  | PNone | PBool _ | PInt _ => true
  | PStr s => str_ok s
  | PList lst => forallb plain_json lst
  | PDict dct =>
      forallb (fun kv => match kv with
                         | (PStr k, x) => str_ok k && plain_json x
                         | _ => false
                         end) dct
      && distinct (map key_of dct)
  | PFloat _ | PTuple _ | PObject _ => false
  end.

Definition is_type_error (e : exn) : Prop := exists msg, e = TypeError msg.

(** The keys that the dictionary loop of the encoder turns into text. *)
Definition key_ok (k : pyval) : bool :=
  match k with
  | PStr _ | PInt _ | PBool _ | PNone | PFloat _ => true
  | PList _ | PTuple _ | PDict _ | PObject _ => false
  end.

(** The values on which [json.dumps] returns: no object of another class
    anywhere, and dictionary keys as in [key_ok]. *)
Fixpoint serializable (v : pyval) : bool :=
  match v with
  | PNone | PBool _ | PInt _ | PFloat _ | PStr _ => true
  | PList lst | PTuple lst => forallb serializable lst
  | PDict dct =>
      forallb (fun kv => match kv with
                         | (k, x) => key_ok k && serializable x
                         end) dct
  | PObject _ => false
  end.

(** The characters of a log line: printable ASCII and the newline. *)
Definition log_char (c : Z) : bool :=
  ((32 <=? c) && (c <=? 126)) || (c =? 10).

Definition log_text (t : pystr) : Prop := Forall (fun c => log_char c = true) t.

(** A string with every high surrogate that is directly followed by a low
    surrogate replaced, from left to right, by the code point the two
    encode. *)
Fixpoint join_surrogates (s : pystr) : pystr :=
  match s with
  | [] => []
  | c :: s' =>
      match s' with
      | lo :: s'' =>
          if is_high c && is_low lo then
            (65536 + Z.lor (Z.shiftl (c - 55296) 10) (lo - 56320))
            :: join_surrogates s''
          else c :: join_surrogates s'
      | [] => [c]
      end
  end.

(** What is left of a value in its JSON text: a tuple is a list, a key that
    is an integer, a boolean or None is the string of its JSON text, and
    surrogate pairs are joined.  Floats, float keys and what has no JSON
    text are left as they are. *)
Definition image_key (k : pyval) : pyval :=
  match k with
  | PStr s => PStr (join_surrogates s)
  | PInt n => PStr (int_repr n)
  | PBool true => PStr (lit "true")
  | PBool false => PStr (lit "false")
  | PNone => PStr (lit "null")
  | PFloat _ | PList _ | PTuple _ | PDict _ | PObject _ => k
  end.

Fixpoint json_image (v : pyval) : pyval :=
  match v with
  | PStr s => PStr (join_surrogates s)
  | PList lst | PTuple lst => PList (map json_image lst)
  | PDict dct =>
      PDict (map (fun kv => match kv with
                            | (k, x) => (image_key k, json_image x)
                            end) dct)
  | PNone | PBool _ | PInt _ | PFloat _ | PObject _ => v
  end.

(** Induction on values that reaches inside lists and dictionaries. *)
Section PyvalInduction.

Variable P : pyval -> Prop.
Hypothesis HNone : P PNone.
Hypothesis HBool : forall b, P (PBool b).
Hypothesis HInt : forall n, P (PInt n).
Hypothesis HFloat : forall x, P (PFloat x).
Hypothesis HStr : forall s, P (PStr s).
Hypothesis HList : forall lst, Forall P lst -> P (PList lst).
Hypothesis HTuple : forall lst, Forall P lst -> P (PTuple lst).
Hypothesis HDict :
  forall dct, Forall (fun kv => P (fst kv) /\ P (snd kv)) dct -> P (PDict dct).
Hypothesis HObject : forall cls, P (PObject cls).

Fixpoint pyval_nested_ind (v : pyval) : P v :=
  match v with
  | PNone => HNone
  | PBool b => HBool b
  | PInt n => HInt n
  | PFloat x => HFloat x
  | PStr s => HStr s
  | PList lst =>
      HList lst
        ((fix go (l : list pyval) : Forall P l :=
            match l with
            | [] => Forall_nil P
            | x :: l' => Forall_cons x (pyval_nested_ind x) (go l')
            end) lst)
  | PTuple lst =>
      HTuple lst
        ((fix go (l : list pyval) : Forall P l :=
            match l with
            | [] => Forall_nil P
            | x :: l' => Forall_cons x (pyval_nested_ind x) (go l')
            end) lst)
  | PDict dct =>
      HDict dct
        ((fix go (l : list (pyval * pyval))
            : Forall (fun kv => P (fst kv) /\ P (snd kv)) l :=
            match l with
            | [] => Forall_nil _
            | (k, x) :: l' =>
                Forall_cons (k, x)
                  (conj (pyval_nested_ind k) (pyval_nested_ind x)) (go l')
            end) dct)
  | PObject cls => HObject cls
  end.

End PyvalInduction.

(** ** Sample inputs *)

(** Any printer of finite floats will do where no float is printed. *)
Definition sample_float_repr (x : spec_float) : pystr := lit "0.0".
Definition sample_float_of_str (s : pystr) : spec_float := S754_zero false.

Definition empty_world : world := mkWorld [] [].

(** The notification of scenario 5 of the specification. *)
Definition s3_event : pyval :=
  PDict [ (PStr (lit "Records"),
           PList [ PDict [ (PStr (lit "s3"),
                            PDict [ (PStr (lit "bucket"),
                                     PDict [ (PStr (lit "name"),
                                              PStr (lit "my-bucket")) ]) ]) ] ]) ].

(** A [set] has no JSON encoding. *)
Definition set_event : pyval :=
  PDict [ (PStr (lit "Records"), PObject (lit "set")) ].

(** An event with an integer and a boolean key, a tuple and a surrogate
    pair. *)
Definition mixed_event : pyval :=
  PDict [ (PInt 1, PTuple [PStr [55357; 56832]; PNone]);
          (PBool true, PStr (lit "x")) ].

(** ** The handler's result *)

Definition fixed_response : pyval :=
  PDict [ (PStr (lit "statusCode"), PInt 200);
          (PStr (lit "body"), PStr (quote :: lit "Success" ++ [quote])) ].

(** ** Vocabulary of the read-back proofs *)

Definition digit_step (acc d : Z) : Z := acc * 10 + (d - 48).

(** What may follow a number without being read as part of it. *)
Definition follow_ok (rest : pystr) : bool :=
  match rest with
  | [] => true
  | c :: _ => negb (is_digit c || (c =? 46) || (c =? 101) || (c =? 69))
  end.

(** The text after a [\uXXXX] escape does not continue it into a pair. *)
Definition no_low_escape (s : pystr) : Prop :=
  match s with
  | b :: u :: t =>
      b = backslash -> u = 117 ->
      exists g1 g2 g3 g4 s4 uni2,
        t = g1 :: g2 :: g3 :: g4 :: s4
        /\ decode_hex4 g1 g2 g3 g4 = inr uni2 /\ is_low uni2 = false
  | _ => True
  end.

Definition all_ws (s : pystr) : Prop := Forall (fun c => is_ws c = true) s.

(** The first character of an encoded value. *)
Definition value_head (c : Z) : bool :=
  negb (is_ws c) && negb (c =? 93) && negb (c =? 125) && negb (c =? 44)
  && negb (c =? 65279).

Definition starts_value (t : pystr) : Prop :=
  exists c t', t = c :: t' /\ value_head c = true.

Definition as_items (kvs : list (pystr * pyval)) : list (pyval * pyval) :=
  map (fun kv => (PStr (fst kv), snd kv)) kvs.

(** [scan] reads the encoding of [v] back, whatever follows it, when that
    encoding is no longer than [bound]. *)
Definition reads_back (float_repr : spec_float -> pystr) (indent : option nat)
    (scan : pystr -> res (pyval * pystr)) (bound level : nat) (v : pyval)
    : Prop :=
  forall t rest,
    iterencode float_repr indent v level = inr t ->
    (List.length t <= bound)%nat ->
    follow_ok rest = true -> scan (t ++ rest) = inr (v, rest).

(** ** Proof automation *)

(** Case analysis on every integer comparison of the goal, or of a
    hypothesis. *)
Ltac case_cmp_in T :=
  match T with
  | context [?a =? ?b] => destruct (Z.eqb_spec a b)
  | context [?a <? ?b] => destruct (Z.ltb_spec a b)
  | context [?a <=? ?b] => destruct (Z.leb_spec a b)
  end.

Ltac zbool :=
  repeat (match goal with |- ?G => case_cmp_in G end);
  cbn [andb orb negb]; try reflexivity; try discriminate; try lia;
  try (exfalso; lia); try (f_equal; lia).

Ltac zbool_in H :=
  repeat (let T := type of H in case_cmp_in T);
  cbn [andb orb negb] in H; try discriminate H.

(** Linear arithmetic on the lengths of concatenated texts. *)
Ltac len_lia :=
  repeat (progress (rewrite ?length_app in *; cbn [List.length] in *)); lia.

(** ** Running the handler *)

Lemma dumps_success float_repr :
  json_dumps float_repr None (PStr (lit "Success"))
  = inr (quote :: lit "Success" ++ [quote]).
Proof. reflexivity. Qed.

Lemma success_response_run float_repr w :
  success_response float_repr w = (inr fixed_response, w).
Proof. reflexivity. Qed.

Lemma log_event_ok float_repr event text w :
  json_dumps float_repr (Some 2%nat) event = inr text ->
  log_event float_repr event w
  = (inr tt,
     mkWorld (stdout w ++ [lit "Received S3 event:" ++ [32] ++ text ++ [10]])
             (globals w)).
Proof.
  intros Hd. unfold log_event, bind, call, print. rewrite Hd.
  cbn [str_join flat_map]. rewrite app_nil_r, <- !app_assoc. reflexivity.
Qed.

Lemma log_event_raise float_repr event e w :
  json_dumps float_repr (Some 2%nat) event = inl e ->
  log_event float_repr event w = (inl e, w).
Proof.
  intros Hd. unfold log_event, bind, call. rewrite Hd. reflexivity.
Qed.

Lemma handler_ok float_repr event context text w :
  json_dumps float_repr (Some 2%nat) event = inr text ->
  lambda_handler float_repr event context w
  = (inr fixed_response,
     mkWorld (stdout w ++ [lit "Received S3 event:" ++ [32] ++ text ++ [10]])
             (globals w)).
Proof.
  intros Hd. unfold lambda_handler, bind.
  rewrite (log_event_ok _ _ _ _ Hd). apply success_response_run.
Qed.

Lemma handler_raise float_repr event context e w :
  json_dumps float_repr (Some 2%nat) event = inl e ->
  lambda_handler float_repr event context w = (inl e, w).
Proof.
  intros Hd. unfold lambda_handler, bind.
  rewrite (log_event_raise _ _ _ _ Hd). reflexivity.
Qed.

(** ** Sample runs of the embedding *)

Example dumps_nested_list :
  json_dumps sample_float_repr (Some 2%nat)
    (PList [PInt 1; PList [PBool true; PNone]; PDict []; PInt (-20)])
  = inr (lit "[
  1,
  [
    true,
    null
  ],
  {},
  -20
]").
Proof. reflexivity. Qed.

Example dumps_compact_keys :
  json_dumps sample_float_repr None
    (PDict [ (PNone, PInt 1); (PInt 2, PTuple [PInt 3; PInt 4]) ])
  = inr ([123] ++ quoted "null" ++ lit ": 1, " ++ quoted "2"
         ++ lit ": [3, 4]" ++ [125]).
Proof. reflexivity. Qed.

Example dumps_escapes :
  json_dumps sample_float_repr (Some 2%nat) (PStr [233; 128512; 10; 127; 34])
  = inr (quote :: lit "\u00e9\ud83d\ude00\n\u007f\" ++ [quote; quote]).
Proof. reflexivity. Qed.

Example dumps_special_floats :
  json_dumps sample_float_repr None
    (PList [PFloat S754_nan; PFloat (S754_infinity true)])
  = inr (lit "[NaN, -Infinity]").
Proof. reflexivity. Qed.

Example dumps_tuple_key :
  json_dumps sample_float_repr (Some 2%nat)
    (PDict [ (PTuple [PInt 1; PInt 2], PInt 3) ])
  = inl (TypeError (lit "keys must be str, int, float, bool or None, not tuple")).
Proof. reflexivity. Qed.

Example loads_surrogate_pair :
  json_loads sample_float_of_str (quoted "\ud83d\ude00") = inr (PStr [128512]).
Proof. reflexivity. Qed.

Example loads_repeated_key :
  json_loads sample_float_of_str
    ([123] ++ quoted "a" ++ lit ": 1, " ++ quoted "b" ++ lit ":[ ] ,"
     ++ quoted "a" ++ lit " : -0 } ")
  = inr (PDict [ (PStr (lit "a"), PInt 0); (PStr (lit "b"), PList []) ]).
Proof. reflexivity. Qed.

Example loads_leading_zero :
  json_loads sample_float_of_str (lit "[012]")
  = inl (JSONDecodeError (lit "Expecting ',' delimiter")).
Proof. reflexivity. Qed.

Example handler_logs_s3_event :
  stdout (snd (lambda_handler sample_float_repr s3_event PNone empty_world))
  = [ lit "Received S3 event: {
  " ++ quoted "Records" ++ lit ": [
    {
      " ++ quoted "s3" ++ lit ": {
        " ++ quoted "bucket" ++ lit ": {
          " ++ quoted "name" ++ lit ": " ++ quoted "my-bucket" ++ lit "
        }
      }
    }
  ]
}
" ].
Proof. reflexivity. Qed.

(** ** When [json.dumps] returns and what it raises *)

Section EncoderOutcome.

Variable float_repr : spec_float -> pystr.
Variable indent : option nat.

Local Abbreviation enc := (Encoder.iterencode float_repr indent).

Lemma encode_items_total (f : pyval -> res pystr) sep lst :
  Forall (fun v => exists t, f v = inr t) lst ->
  forall first, exists body, Encoder.encode_items f sep first lst = inr body.
Proof.
  induction 1 as [|v lst [t Ht] _ IH]; intros first; cbn.
  - eexists; reflexivity.
  - rewrite Ht. cbn. destruct (IH false) as [body Hb]. rewrite Hb. cbn.
    eexists; reflexivity.
Qed.

Lemma encode_pairs_total (f : pyval -> res pystr) sep dct :
  Forall (fun kv => is_str (fst kv) = true /\ exists t, f (snd kv) = inr t) dct ->
  forall first,
  exists body, Encoder.encode_pairs float_repr f sep first dct = inr body.
Proof.
  induction 1 as [|[k v] dct [Hk [t Ht]] _ IH]; intros first; cbn.
  - eexists; reflexivity.
  - cbn in Hk, Ht. destruct k; try discriminate. cbn. rewrite Ht. cbn.
    destruct (IH false) as [body Hb]. rewrite Hb. cbn.
    eexists; reflexivity.
Qed.

Lemma iterencode_total v :
  json_value v = true -> forall level, exists t, enc v level = inr t.
Proof.
  induction v as [| b | n | x | s | lst IH | lst IH | dct IH | cls]
    using pyval_nested_ind; intros Hv level;
    try (cbn; eexists; reflexivity).
  - destruct b; cbn; eexists; reflexivity.
  - cbn in Hv. destruct lst as [|v0 lst0]; [cbn; eexists; reflexivity|].
    remember (v0 :: lst0) as lst eqn:E.
    assert (Hall : Forall (fun v => exists t,
                Encoder.iterencode float_repr indent v (S level) = inr t) lst).
    { rewrite forallb_forall in Hv. rewrite Forall_forall in IH |- *.
      intros v Hin. apply (IH v Hin (Hv v Hin)). }
    destruct (encode_items_total
                (fun v => Encoder.iterencode float_repr indent v (S level))
                (Encoder.item_separator indent ++ Encoder.newline_indent indent (S level))
                lst Hall true) as [body Hb].
    subst lst. cbn [Encoder.iterencode]. rewrite Hb. cbn. eexists; reflexivity.
  - cbn in Hv. destruct lst as [|v0 lst0]; [cbn; eexists; reflexivity|].
    remember (v0 :: lst0) as lst eqn:E.
    assert (Hall : Forall (fun v => exists t,
                Encoder.iterencode float_repr indent v (S level) = inr t) lst).
    { rewrite forallb_forall in Hv. rewrite Forall_forall in IH |- *.
      intros v Hin. apply (IH v Hin (Hv v Hin)). }
    destruct (encode_items_total
                (fun v => Encoder.iterencode float_repr indent v (S level))
                (Encoder.item_separator indent ++ Encoder.newline_indent indent (S level))
                lst Hall true) as [body Hb].
    subst lst. cbn [Encoder.iterencode]. rewrite Hb. cbn. eexists; reflexivity.
  - cbn in Hv. destruct dct as [|kv0 dct0]; [cbn; eexists; reflexivity|].
    remember (kv0 :: dct0) as dct eqn:E.
    assert (Hall : Forall (fun kv => is_str (fst kv) = true /\ exists t,
                Encoder.iterencode float_repr indent (snd kv) (S level) = inr t) dct).
    { rewrite forallb_forall in Hv. rewrite Forall_forall in IH |- *.
      intros [k v] Hin. specialize (Hv _ Hin). specialize (IH _ Hin).
      cbn in *. apply andb_true_iff in Hv. destruct Hv as [Hk Hx].
      split; [exact Hk|]. apply (proj2 IH Hx). }
    destruct (encode_pairs_total
                (fun v => Encoder.iterencode float_repr indent v (S level))
                (Encoder.item_separator indent ++ Encoder.newline_indent indent (S level))
                dct Hall true) as [body Hb].
    subst dct. cbn [Encoder.iterencode]. rewrite Hb. cbn. eexists; reflexivity.
  - discriminate.
Qed.

Lemma json_dumps_total v :
  json_value v = true -> exists t, json_dumps float_repr indent v = inr t.
Proof.
  intros Hv. unfold json_dumps, Encoder.encode.
  destruct v; apply (iterencode_total _ Hv 0%nat).
Qed.

Lemma key_str_error k e :
  Encoder.key_str float_repr k = inl e -> is_type_error e.
Proof.
  destruct k as [| [] | | | | | | |]; cbn; intros H; inversion H; eexists; reflexivity.
Qed.

Lemma encode_items_error (f : pyval -> res pystr) sep lst :
  Forall (fun v => forall e, f v = inl e -> is_type_error e) lst ->
  forall first e, Encoder.encode_items f sep first lst = inl e -> is_type_error e.
Proof.
  induction 1 as [|v lst Hv _ IH]; intros first e; cbn; [discriminate|].
  destruct (f v) as [e1|t] eqn:Hf; cbn.
  - intros H; inversion H; subst. apply (Hv _ eq_refl).
  - destruct (Encoder.encode_items f sep false lst) as [e2|body] eqn:Hb; cbn.
    + intros H; inversion H; subst. apply (IH _ _ Hb).
    + discriminate.
Qed.

Lemma encode_pairs_error (f : pyval -> res pystr) sep dct :
  Forall (fun kv => forall e, f (snd kv) = inl e -> is_type_error e) dct ->
  forall first e,
  Encoder.encode_pairs float_repr f sep first dct = inl e -> is_type_error e.
Proof.
  induction 1 as [|[k v] dct Hv _ IH]; intros first e; cbn; [discriminate|].
  destruct (Encoder.key_str float_repr k) as [e0|ks] eqn:Hk; cbn.
  { intros H; inversion H; subst. apply (key_str_error _ _ Hk). }
  destruct (f v) as [e1|t] eqn:Hf; cbn.
  - intros H; inversion H; subst. apply (Hv _ Hf).
  - destruct (Encoder.encode_pairs float_repr f sep false dct) as [e2|body] eqn:Hb; cbn.
    + intros H; inversion H; subst. apply (IH _ _ Hb).
    + discriminate.
Qed.

Lemma iterencode_error v :
  forall level e, enc v level = inl e -> is_type_error e.
Proof.
  induction v as [| b | n | x | s | lst IH | lst IH | dct IH | cls]
    using pyval_nested_ind; intros level e; try (cbn; discriminate).
  - destruct b; cbn; discriminate.
  - destruct lst as [|v0 lst0]; [cbn; discriminate|].
    remember (v0 :: lst0) as lst eqn:E. intros H.
    assert (H' : exists first sep,
               Encoder.encode_items
                 (fun v => Encoder.iterencode float_repr indent v (S level))
                 sep first lst = inl e).
    { subst lst. cbn [Encoder.iterencode] in H.
      match type of H with rbind ?r _ = _ => destruct r as [e1|body] eqn:Hb end;
        cbn in H; [inversion H; subst; eauto | discriminate]. }
    destruct H' as (first & sep & H').
    eapply encode_items_error; [|exact H'].
    eapply Forall_impl; [|exact IH]. cbn. intros v Hv e'. apply Hv.
  - destruct lst as [|v0 lst0]; [cbn; discriminate|].
    remember (v0 :: lst0) as lst eqn:E. intros H.
    assert (H' : exists first sep,
               Encoder.encode_items
                 (fun v => Encoder.iterencode float_repr indent v (S level))
                 sep first lst = inl e).
    { subst lst. cbn [Encoder.iterencode] in H.
      match type of H with rbind ?r _ = _ => destruct r as [e1|body] eqn:Hb end;
        cbn in H; [inversion H; subst; eauto | discriminate]. }
    destruct H' as (first & sep & H').
    eapply encode_items_error; [|exact H'].
    eapply Forall_impl; [|exact IH]. cbn. intros v Hv e'. apply Hv.
  - destruct dct as [|kv0 dct0]; [cbn; discriminate|].
    remember (kv0 :: dct0) as dct eqn:E. intros H.
    assert (H' : exists first sep,
               Encoder.encode_pairs float_repr
                 (fun v => Encoder.iterencode float_repr indent v (S level))
                 sep first dct = inl e).
    { subst dct. cbn [Encoder.iterencode] in H.
      match type of H with rbind ?r _ = _ => destruct r as [e1|body] eqn:Hb end;
        cbn in H; [inversion H; subst; eauto | discriminate]. }
    destruct H' as (first & sep & H').
    eapply encode_pairs_error; [|exact H'].
    eapply Forall_impl; [|exact IH]. cbn. intros kv [_ Hv] e'. apply Hv.
  - cbn. intros H; inversion H. eexists; reflexivity.
Qed.

Lemma json_dumps_error v e :
  json_dumps float_repr indent v = inl e -> is_type_error e.
Proof.
  unfold json_dumps, Encoder.encode.
  destruct v; try apply (iterencode_error _ 0%nat e). discriminate.
Qed.

End EncoderOutcome.

(** ** Reading back what the encoder wrote: integers *)

Lemma int_of_str_unfold s :
  int_of_str s
  = match s with
    | c :: ds => if c =? 45 then - fold_left digit_step ds 0
                 else fold_left digit_step s 0
    | [] => 0
    end.
Proof. reflexivity. Qed.

Lemma nat_digits_value fuel : forall n acc,
  0 <= n < 2 ^ Z.of_nat fuel ->
  fold_left digit_step (nat_digits fuel n acc) 0 = fold_left digit_step acc n.
Proof.
  induction fuel as [|f IH]; intros n acc Hn.
  - cbn in Hn. assert (n = 0) by lia. subst. reflexivity.
  - cbn [nat_digits]. destruct (n <? 10) eqn:Hlt.
    + cbn [fold_left]. f_equal. unfold digit_step.
      apply Z.ltb_lt in Hlt. rewrite Z.mod_small by lia. lia.
    + apply Z.ltb_ge in Hlt. rewrite IH.
      * cbn [fold_left]. f_equal. unfold digit_step.
        pose proof (Z.div_mod n 10 ltac:(lia)). lia.
      * rewrite Nat2Z.inj_succ, Z.pow_succ_r in Hn by lia.
        split; [apply Z.div_pos; lia|].
        apply Z.div_lt_upper_bound; lia.
Qed.

Lemma nat_digits_are_digits fuel : forall n acc,
  0 <= n -> Forall (fun c => is_digit c = true) acc ->
  Forall (fun c => is_digit c = true) (nat_digits fuel n acc).
Proof.
  induction fuel as [|f IH]; intros n acc Hn Hacc; cbn [nat_digits]; [exact Hacc|].
  assert (Hd : is_digit (48 + n mod 10) = true).
  { unfold is_digit. pose proof (Z.mod_pos_bound n 10 ltac:(lia)).
    apply andb_true_iff; split; apply Z.leb_le; lia. }
  destruct (n <? 10).
  - constructor; assumption.
  - apply IH; [apply Z.div_pos; lia | constructor; assumption].
Qed.

Lemma nat_digits_leading fuel : forall n acc,
  0 < n < 2 ^ Z.of_nat fuel ->
  exists c tl, nat_digits fuel n acc = c :: tl /\ 49 <= c <= 57.
Proof.
  induction fuel as [|f IH]; intros n acc Hn.
  - cbn in Hn. lia.
  - cbn [nat_digits]. destruct (n <? 10) eqn:Hlt.
    + apply Z.ltb_lt in Hlt. rewrite Z.mod_small by lia.
      eexists _, _; split; [reflexivity | lia].
    + apply Z.ltb_ge in Hlt. apply IH.
      rewrite Nat2Z.inj_succ, Z.pow_succ_r in Hn by lia.
      split; [apply Z.div_str_pos; lia|].
      apply Z.div_lt_upper_bound; lia.
Qed.

Lemma digit_fuel_enough n : 0 <= n -> 0 <= n < 2 ^ Z.of_nat (digit_fuel n).
Proof.
  intros Hn. split; [exact Hn|]. unfold digit_fuel.
  rewrite Nat2Z.inj_succ, Z2Nat.id by apply Z.log2_nonneg.
  destruct (Z.eq_dec n 0) as [->|Hz]; [reflexivity|].
  apply Z.log2_spec. lia.
Qed.

Lemma span_digits_app ds rest :
  Forall (fun c => is_digit c = true) ds -> follow_ok rest = true ->
  span_digits (ds ++ rest) = (ds, rest).
Proof.
  intros Hds Hrest. induction Hds as [|c ds Hc _ IH]; cbn.
  - destruct rest as [|c rest']; [reflexivity|]. cbn in Hrest |- *.
    destruct (is_digit c); [discriminate | reflexivity].
  - rewrite Hc, IH. reflexivity.
Qed.

Lemma int_repr_shape n :
  exists sign c tl,
    int_repr n = sign ++ c :: tl
    /\ (sign = [] \/ sign = [45])
    /\ is_digit c = true
    /\ (c = 48 -> tl = [])
    /\ Forall (fun d => is_digit d = true) tl.
Proof.
  assert (Hpos : forall m, 0 <= m ->
            exists c tl, nat_digits (digit_fuel m) m [] = c :: tl
                         /\ is_digit c = true /\ (c = 48 -> tl = [])
                         /\ Forall (fun d => is_digit d = true) tl).
  { intros m Hm. destruct (Z.eq_dec m 0) as [->|Hz].
    - exists 48, []. cbn. repeat split; constructor.
    - destruct (nat_digits_leading (digit_fuel m) m []) as (c & tl & E & Hc).
      { pose proof (digit_fuel_enough m Hm). lia. }
      pose proof (nat_digits_are_digits (digit_fuel m) m [] Hm (Forall_nil _)) as Hall.
      rewrite E in Hall. inversion Hall; subst.
      exists c, tl. repeat split; try assumption. lia. }
  unfold int_repr. destruct (n <? 0) eqn:Hneg.
  - apply Z.ltb_lt in Hneg. destruct (Hpos (- n)) as (c & tl & E & H); [lia|].
    exists [45], c, tl. rewrite E. cbn. intuition.
  - apply Z.ltb_ge in Hneg. destruct (Hpos n) as (c & tl & E & H); [lia|].
    exists [], c, tl. rewrite E. cbn. intuition.
Qed.

Lemma int_of_str_repr n : int_of_str (int_repr n) = n.
Proof.
  unfold int_repr. destruct (Z.ltb_spec n 0) as [Hneg|Hpos].
  - rewrite int_of_str_unfold. cbn [Z.eqb Pos.eqb].
    rewrite nat_digits_value by (apply digit_fuel_enough; lia).
    cbn [fold_left]. lia.
  - pose proof (nat_digits_are_digits (digit_fuel n) n [] Hpos (Forall_nil _))
      as Hall.
    pose proof (nat_digits_value (digit_fuel n) n [] (digit_fuel_enough n Hpos))
      as Hval.
    rewrite int_of_str_unfold.
    destruct (nat_digits (digit_fuel n) n []) as [|c tl].
    + cbn in Hval. exact Hval.
    + inversion Hall as [|? ? Hc _]; subst.
      replace (c =? 45) with false; [exact Hval|].
      unfold is_digit in Hc. zbool_in Hc. zbool.
Qed.

Lemma match_integer_repr n rest :
  follow_ok rest = true ->
  match_integer (int_repr n ++ rest) = Some (int_repr n, rest).
Proof.
  intros Hrest.
  destruct (int_repr_shape n) as (sign & c & tl & E & Hs & Hc & Hz & Htl).
  rewrite E. unfold match_integer.
  assert (Hc45 : (c =? 45) = false).
  { apply Z.eqb_neq. unfold is_digit in Hc. apply andb_true_iff in Hc.
    destruct Hc as [H1 _]. apply Z.leb_le in H1. lia. }
  assert (Hbody : forall sg,
            match (c :: tl) ++ rest with
            | c0 :: s2 =>
                if c0 =? 48 then Some (sg ++ [48], s2)
                else if is_digit c0 then
                  let (ds, r) := span_digits s2 in Some (sg ++ c0 :: ds, r)
                else None
            | [] => None
            end = Some (sg ++ c :: tl, rest)).
  { intros sg. cbn [app]. destruct (c =? 48) eqn:H48.
    - apply Z.eqb_eq in H48. rewrite (Hz H48). subst c. reflexivity.
    - rewrite Hc, (span_digits_app tl rest Htl Hrest). reflexivity. }
  destruct Hs as [-> | ->].
  - cbn [app]. rewrite Hc45. apply (Hbody []).
  - cbn [app]. cbn [Z.eqb Pos.eqb]. apply (Hbody [45]).
Qed.

Lemma follow_ok_no_frac rest : follow_ok rest = true -> match_frac rest = None.
Proof.
  destruct rest as [|c r]; [reflexivity|]. cbn. intros H.
  apply negb_true_iff in H. apply orb_false_iff in H. destruct H as [H _].
  apply orb_false_iff in H. destruct H as [H _].
  apply orb_false_iff in H. destruct H as [_ H]. rewrite H. reflexivity.
Qed.

Lemma follow_ok_no_exp rest : follow_ok rest = true -> match_exp rest = None.
Proof.
  destruct rest as [|c r]; [reflexivity|]. cbn. intros H.
  apply negb_true_iff in H. apply orb_false_iff in H. destruct H as [H H69].
  apply orb_false_iff in H. destruct H as [_ H101].
  rewrite H101, H69. reflexivity.
Qed.

Lemma scan_number_int float_of_str n rest :
  follow_ok rest = true ->
  scan_number float_of_str (int_repr n ++ rest) = Some (PInt n, rest).
Proof.
  intros Hrest. unfold scan_number.
  rewrite (match_integer_repr n rest Hrest).
  rewrite (follow_ok_no_frac rest Hrest). cbn [opt_str].
  rewrite (follow_ok_no_exp rest Hrest). cbn [opt_str app].
  rewrite int_of_str_repr. reflexivity.
Qed.

(** ** Reading back what the encoder wrote: strings *)

Lemma hexval_hexdigit d : 0 <= d < 16 -> hexval (hexdigit d) = Some d.
Proof.
  intros Hd. unfold hexdigit. destruct (Z.ltb_spec d 10); unfold hexval.
  - zbool.
  - zbool.
Qed.

Lemma nibble_spec n k :
  0 <= k -> Z.land (Z.shiftr n k) 15 = (n / 2 ^ k) mod 16.
Proof.
  intros Hk. rewrite Z.shiftr_div_pow2 by exact Hk.
  change 15 with (Z.ones 4). rewrite Z.land_ones by lia. reflexivity.
Qed.

Lemma decode_format n :
  0 <= n < 65536 ->
  match format_04x n with
  | [h1; h2; h3; h4] => decode_hex4 h1 h2 h3 h4 = inr n
  | _ => False
  end.
Proof.
  intros Hn. unfold format_04x, decode_hex4.
  replace (Z.land n 15) with (Z.land (Z.shiftr n 0) 15) by (rewrite Z.shiftr_0_r; reflexivity).
  rewrite !nibble_spec by lia.
  rewrite !hexval_hexdigit by (apply Z.mod_pos_bound; lia).
  f_equal. change (2 ^ 12) with 4096. change (2 ^ 8) with 256.
  change (2 ^ 4) with 16. change (2 ^ 0) with 1.
  Z.div_mod_to_equations. lia.
Qed.

Lemma lor_disjoint a x k :
  0 <= k -> 0 <= x < 2 ^ k -> Z.lor (a * 2 ^ k) x = a * 2 ^ k + x.
Proof.
  intros Hk Hx.
  assert (Hland : Z.land (a * 2 ^ k) x = 0).
  { apply Z.bits_inj'. intros i Hi. rewrite Z.land_spec, Z.bits_0.
    destruct (Z.lt_ge_cases i k) as [Hlt|Hge].
    - rewrite Z.mul_pow2_bits_low by lia. reflexivity.
    - destruct (Z.eq_dec x 0) as [->|Hx0].
      + rewrite Z.bits_0. apply andb_false_r.
      + assert (Z.log2 x < k) by (apply Z.log2_lt_pow2; lia).
        rewrite (Z.bits_above_log2 x i) by lia. apply andb_false_r. }
  rewrite <- Z.lxor_lor by exact Hland.
  symmetry. apply Z.add_nocarry_lxor. exact Hland.
Qed.

Lemma scanstring_plain c s chunks :
  needs_escape c = false ->
  scanstring (c :: s) chunks = scanstring s (chunks ++ [c]).
Proof.
  unfold needs_escape, quote, backslash. intros H. cbn [scanstring].
  unfold quote, backslash. zbool_in H; zbool.
Qed.

Lemma scanstring_short esc char s chunks :
  esc <> 117 -> backslash_char esc = Some char ->
  scanstring (backslash :: esc :: s) chunks = scanstring s (chunks ++ [char]).
Proof.
  intros Hesc Hchar. cbn [scanstring]. unfold quote, backslash. cbn [Z.eqb Pos.eqb].
  destruct (Z.eqb_spec esc 117); [contradiction|]. cbn [negb].
  rewrite Hchar. reflexivity.
Qed.

Lemma scanstring_u h1 h2 h3 h4 uni s3 chunks :
  decode_hex4 h1 h2 h3 h4 = inr uni ->
  is_high uni = false \/ no_low_escape s3 ->
  scanstring (backslash :: 117 :: h1 :: h2 :: h3 :: h4 :: s3) chunks
  = scanstring s3 (chunks ++ [uni]).
Proof.
  intros Hdec Hnext. cbn [scanstring]. unfold quote at 1, backslash at 1 2.
  cbn [Z.eqb Pos.eqb negb]. rewrite Hdec.
  fold (is_high uni). destruct (is_high uni) eqn:Hhigh; [|reflexivity].
  destruct Hnext as [Hnext|Hnext]; [discriminate|].
  destruct s3 as [|b [|u t]]; [reflexivity | |].
  { cbn [strip_prefix]. destruct (backslash =? b); reflexivity. }
  cbn in Hnext.
  destruct (Z.eqb_spec b backslash) as [Hb|Hb].
  - destruct (Z.eqb_spec u 117) as [Hu|Hu].
    + destruct (Hnext Hb Hu) as (g1 & g2 & g3 & g4 & s4 & uni2 & -> & Hd2 & Hlow).
      subst b u. rewrite ?Z.eqb_refl. cbn [andb]. rewrite Hd2.
      fold (is_low uni2). rewrite Hlow. reflexivity.
    + assert (Hu1 : (u =? 117) = false) by (apply Z.eqb_neq; exact Hu).
      assert (Hu2 : (117 =? u) = false) by (rewrite Z.eqb_sym; exact Hu1).
      subst b.
      destruct t as [|g1 [|g2 [|g3 [|g4 s4]]]];
        cbn [strip_prefix]; rewrite ?Z.eqb_refl, ?Hu1, ?Hu2; cbn [andb];
        reflexivity.
  - assert (Hb1 : (b =? backslash) = false) by (apply Z.eqb_neq; exact Hb).
    assert (Hb2 : (backslash =? b) = false) by (rewrite Z.eqb_sym; exact Hb1).
    destruct t as [|g1 [|g2 [|g3 [|g4 s4]]]];
      cbn [strip_prefix]; rewrite ?Hb1, ?Hb2; cbn [andb]; reflexivity.
Qed.

Lemma scanstring_pair h1 h2 h3 h4 g1 g2 g3 g4 hi lo s4 chunks :
  decode_hex4 h1 h2 h3 h4 = inr hi -> decode_hex4 g1 g2 g3 g4 = inr lo ->
  is_high hi = true -> is_low lo = true ->
  scanstring (backslash :: 117 :: h1 :: h2 :: h3 :: h4
              :: backslash :: 117 :: g1 :: g2 :: g3 :: g4 :: s4) chunks
  = scanstring s4
      (chunks ++ [65536 + Z.lor (Z.shiftl (hi - 55296) 10) (lo - 56320)]).
Proof.
  intros Hh Hg Hhi Hlo. cbn [scanstring]. unfold quote at 1, backslash at 1 2 3.
  cbn [Z.eqb Pos.eqb negb andb]. rewrite Hh. fold (is_high hi). rewrite Hhi.
  rewrite Hg. fold (is_low lo). rewrite Hlo. reflexivity.
Qed.

Lemma high_is_code_unit hi : is_high hi = true -> 0 <= hi < 65536 /\ is_low hi = false.
Proof. unfold is_high, is_low. intros H. zbool_in H; split; zbool. Qed.

Lemma low_is_code_unit lo : is_low lo = true -> 0 <= lo < 65536.
Proof. unfold is_low. intros H. zbool_in H; lia. Qed.

(** The four shapes of an escaped character. *)
Lemma escape_char_cases c :
  0 <= c <= 1114111 ->
  (needs_escape c = false /\ escape_char c = [c])
  \/ (exists esc, esc <> 117 /\ backslash_char esc = Some c
                  /\ escape_char c = [backslash; esc])
  \/ (c < 65536 /\ escape_char c = escape_u c)
  \/ (exists hi lo,
        is_high hi = true /\ is_low lo = true
        /\ escape_char c = escape_u hi ++ escape_u lo
        /\ 65536 + Z.lor (Z.shiftl (hi - 55296) 10) (lo - 56320) = c).
Proof.
  intros Hc. unfold escape_char.
  destruct (needs_escape c) eqn:Hne; [|left; split; reflexivity].
  right. unfold replace, backslash, quote.
  destruct (Z.eqb_spec c 92) as [->|_].
  { left. exists 92. split; [lia | split; reflexivity]. }
  destruct (Z.eqb_spec c 34) as [->|_].
  { left. exists 34. split; [lia | split; reflexivity]. }
  destruct (Z.eqb_spec c 8) as [->|_].
  { left. exists 98. split; [lia | split; reflexivity]. }
  destruct (Z.eqb_spec c 12) as [->|_].
  { left. exists 102. split; [lia | split; reflexivity]. }
  destruct (Z.eqb_spec c 10) as [->|_].
  { left. exists 110. split; [lia | split; reflexivity]. }
  destruct (Z.eqb_spec c 13) as [->|_].
  { left. exists 114. split; [lia | split; reflexivity]. }
  destruct (Z.eqb_spec c 9) as [->|_].
  { left. exists 116. split; [lia | split; reflexivity]. }
  right.
  destruct (Z.ltb_spec c 32); [left; split; [lia | reflexivity]|].
  destruct (Z.ltb_spec c 65536); [left; split; [lia | reflexivity]|].
  right. cbv zeta.
  set (n := c - 65536).
  assert (Hn : 0 <= n < 2 ^ 20) by (change (2 ^ 20) with 1048576; lia).
  assert (Hq : 0 <= n / 2 ^ 10 < 2 ^ 10).
  { split; [apply Z.div_pos; lia|]. apply Z.div_lt_upper_bound; [lia|].
    change (2 ^ 10 * 2 ^ 10) with (2 ^ 20). lia. }
  assert (Hr : 0 <= n mod 2 ^ 10 < 2 ^ 10) by (apply Z.mod_pos_bound; lia).
  assert (Ehi : Z.lor 55296 (Z.land (Z.shiftr n 10) 1023) = 55296 + n / 2 ^ 10).
  { rewrite Z.shiftr_div_pow2 by lia. change 1023 with (Z.ones 10).
    rewrite Z.land_ones by lia. rewrite Z.mod_small by exact Hq.
    change 55296 with (54 * 2 ^ 10). apply lor_disjoint; [lia | exact Hq]. }
  assert (Elo : Z.lor 56320 (Z.land n 1023) = 56320 + n mod 2 ^ 10).
  { change 1023 with (Z.ones 10). rewrite Z.land_ones by lia.
    change 56320 with (55 * 2 ^ 10). apply lor_disjoint; [lia | exact Hr]. }
  rewrite Ehi, Elo.
  exists (55296 + n / 2 ^ 10), (56320 + n mod 2 ^ 10).
  assert (Ecomb : Z.lor (Z.shiftl (55296 + n / 2 ^ 10 - 55296) 10)
                        (56320 + n mod 2 ^ 10 - 56320) = n).
  { replace (55296 + n / 2 ^ 10 - 55296) with (n / 2 ^ 10) by lia.
    replace (56320 + n mod 2 ^ 10 - 56320) with (n mod 2 ^ 10) by lia.
    rewrite Z.shiftl_mul_pow2 by lia.
    rewrite lor_disjoint by (lia || exact Hr).
    pose proof (Z.div_mod n (2 ^ 10) ltac:(lia)). lia. }
  rewrite Ecomb.
  set (p := 2 ^ 10) in *. assert (Hp : p = 1024) by reflexivity.
  repeat split.
  - unfold is_high. zbool.
  - unfold is_low. zbool.
  - unfold n. lia.
Qed.

Lemma scanstring_escape_u n s3 chunks :
  0 <= n < 65536 ->
  is_high n = false \/ no_low_escape s3 ->
  scanstring (escape_u n ++ s3) chunks = scanstring s3 (chunks ++ [n]).
Proof.
  intros Hn Hnext. pose proof (decode_format n Hn) as Hd.
  unfold escape_u, format_04x in *. cbn [app].
  apply scanstring_u; assumption.
Qed.

Lemma scanstring_escape_pair hi lo s4 chunks :
  is_high hi = true -> is_low lo = true ->
  scanstring (escape_u hi ++ escape_u lo ++ s4) chunks
  = scanstring s4
      (chunks ++ [65536 + Z.lor (Z.shiftl (hi - 55296) 10) (lo - 56320)]).
Proof.
  intros Hhi Hlo.
  pose proof (decode_format hi (proj1 (high_is_code_unit hi Hhi))) as Hd1.
  pose proof (decode_format lo (low_is_code_unit lo Hlo)) as Hd2.
  unfold escape_u, format_04x in *. cbn [app].
  apply scanstring_pair; assumption.
Qed.

Lemma str_ok_cons c s :
  str_ok (c :: s) = true ->
  0 <= c <= 1114111
  /\ (is_high c = true -> match s with
                          | c' :: _ => is_low c' = false
                          | [] => True
                          end)
  /\ str_ok s = true.
Proof.
  cbn [str_ok]. intros H.
  apply andb_true_iff in H. destruct H as [H Hs].
  apply andb_true_iff in H. destruct H as [H Hpair].
  apply andb_true_iff in H. destruct H as [H0 H1].
  apply Z.leb_le in H0. apply Z.leb_le in H1.
  repeat split; try assumption.
  intros Hhi. rewrite Hhi in Hpair. destruct s as [|c' s']; [exact I|].
  cbn in Hpair. apply negb_true_iff in Hpair. exact Hpair.
Qed.

Lemma no_low_escape_next s rest :
  str_ok s = true ->
  match s with
  | c :: _ => is_low c = false
  | [] => True
  end ->
  no_low_escape (flat_map escape_char s ++ quote :: rest).
Proof.
  intros Hok Hhead. destruct s as [|c s'].
  - cbn. destruct rest; [exact I|]. intros Hb. discriminate Hb.
  - destruct (str_ok_cons _ _ Hok) as (Hc & _ & _).
    cbn [flat_map]. rewrite <- app_assoc.
    set (X := flat_map escape_char s' ++ quote :: rest).
    assert (HX : exists x X', X = x :: X').
    { unfold X. destruct (flat_map escape_char s'); cbn; eauto. }
    destruct (escape_char_cases c Hc)
      as [[Hne E] | [(esc & Hesc & _ & E) | [[Hlt E] | (hi & lo & Hhi & Hlo & E & _)]]];
      rewrite E.
    + destruct HX as (x & X' & ->). cbn. intros ->. discriminate Hne.
    + cbn. intros _ Hu. contradiction.
    + unfold escape_u, format_04x. cbn. intros _ _.
      pose proof (decode_format c ltac:(lia)) as Hd. unfold format_04x in Hd.
      do 4 eexists. exists X, c. repeat split; [exact Hd | exact Hhead].
    + unfold escape_u at 1, format_04x. cbn. intros _ _.
      destruct (high_is_code_unit hi Hhi) as [Hr Hnl].
      pose proof (decode_format hi Hr) as Hd. unfold format_04x in Hd.
      do 4 eexists. exists (escape_u lo ++ X), hi.
      repeat split; [exact Hd | exact Hnl].
Qed.

Lemma scanstring_escaped s : forall chunks rest,
  str_ok s = true ->
  scanstring (flat_map escape_char s ++ quote :: rest) chunks
  = inr (chunks ++ s, rest).
Proof.
  induction s as [|c s' IH]; intros chunks rest Hok.
  - cbn. rewrite app_nil_r. reflexivity.
  - destruct (str_ok_cons _ _ Hok) as (Hc & Hpair & Hok').
    cbn [flat_map]. rewrite <- app_assoc.
    assert (Hend : forall ch, (chunks ++ [ch]) ++ s' = chunks ++ ch :: s').
    { intros ch. rewrite <- app_assoc. reflexivity. }
    destruct (escape_char_cases c Hc)
      as [[Hne E] | [(esc & Hesc & Hbs & E) | [[Hlt E] | (hi & lo & Hhi & Hlo & E & Hcomb)]]];
      rewrite E.
    + cbn [app]. rewrite (scanstring_plain _ _ _ Hne), IH by exact Hok'.
      rewrite Hend. reflexivity.
    + cbn [app]. rewrite (scanstring_short _ _ _ _ Hesc Hbs), IH by exact Hok'.
      rewrite Hend. reflexivity.
    + rewrite scanstring_escape_u; [| lia |].
      * rewrite IH by exact Hok'. rewrite Hend. reflexivity.
      * destruct (is_high c) eqn:Hh; [right | left; reflexivity].
        apply no_low_escape_next; [exact Hok' | apply Hpair; reflexivity].
    + rewrite <- app_assoc, (scanstring_escape_pair _ _ _ _ Hhi Hlo), Hcomb.
      rewrite IH by exact Hok'. rewrite Hend. reflexivity.
Qed.

(** ** Reading back what the encoder wrote: layout *)

Lemma skip_ws_app w s : all_ws w -> skip_ws (w ++ s) = skip_ws s.
Proof.
  induction 1 as [|c w Hc _ IH]; cbn [app skip_ws]; [reflexivity|].
  rewrite Hc. exact IH.
Qed.

Lemma skip_ws_head c s : is_ws c = false -> skip_ws (c :: s) = c :: s.
Proof. intros H. cbn [skip_ws]. rewrite H. reflexivity. Qed.

Lemma str_mul_ws w n : all_ws w -> all_ws (str_mul w n).
Proof.
  intros Hw. induction n as [|n IH]; cbn [str_mul]; [constructor|].
  apply Forall_app; split; assumption.
Qed.

Lemma newline_indent_ws indent level : all_ws (newline_indent indent level).
Proof.
  unfold newline_indent. destruct indent as [n|]; [|constructor].
  constructor; [reflexivity|].
  apply str_mul_ws, str_mul_ws. constructor; [reflexivity | constructor].
Qed.

Lemma item_separator_shape indent :
  exists w, item_separator indent = 44 :: w /\ all_ws w.
Proof.
  destruct indent; cbn.
  - exists []. split; [reflexivity | constructor].
  - exists [32]. split; [reflexivity|]. constructor; [reflexivity | constructor].
Qed.

Lemma digit_head c : is_digit c = true -> value_head c = true.
Proof.
  unfold is_digit, value_head, is_ws. intros H. zbool_in H; zbool.
Qed.

Lemma int_repr_head n : starts_value (int_repr n).
Proof.
  destruct (int_repr_shape n) as (sign & c & tl & E & [-> | ->] & Hc & _).
  - exists c, tl. split; [exact E | apply digit_head, Hc].
  - exists 45, (c :: tl). split; [exact E | reflexivity].
Qed.

Section Layout.

Variable float_repr : spec_float -> pystr.
Variable indent : option nat.

Lemma iterencode_head v level t :
  plain_json v = true ->
  iterencode float_repr indent v level = inr t -> starts_value t.
Proof.
  destruct v as [| [] | n | x | s | lst | lst | dct | cls]; cbn [plain_json];
    try discriminate; intros _ H.
  - inversion H. eexists _, _; split; reflexivity.
  - inversion H. eexists _, _; split; reflexivity.
  - inversion H. eexists _, _; split; reflexivity.
  - inversion H. apply int_repr_head.
  - inversion H. eexists _, _; split; reflexivity.
  - destruct lst; cbn [iterencode] in H.
    + inversion H. eexists _, _; split; reflexivity.
    + match type of H with rbind ?r _ = _ => destruct r end; cbn in H;
        inversion H. eexists _, _; split; reflexivity.
  - destruct dct; cbn [iterencode] in H.
    + inversion H. eexists _, _; split; reflexivity.
    + match type of H with rbind ?r _ = _ => destruct r end; cbn in H;
        inversion H. eexists _, _; split; reflexivity.
Qed.

Lemma starts_value_skip t s : starts_value t -> skip_ws (t ++ s) = t ++ s.
Proof.
  intros (c & t' & -> & Hc). cbn [app]. apply skip_ws_head.
  unfold value_head in Hc. destruct (is_ws c); [discriminate | reflexivity].
Qed.

End Layout.

(** [dict(pairs)] keeps a list of pairs whose keys are pairwise different. *)
Lemma distinct_mid l1 k l2 :
  distinct (l1 ++ k :: l2) = true ->
  forall k', In k' l1 -> str_eqb k' k = false.
Proof.
  induction l1 as [|k0 l1 IH]; intros H k' Hin; [destruct Hin|].
  cbn [app distinct] in H. apply andb_true_iff in H. destruct H as [Hk0 Hrest].
  destruct Hin as [<- | Hin]; [|exact (IH Hrest k' Hin)].
  apply negb_true_iff in Hk0. rewrite existsb_app in Hk0.
  apply orb_false_iff in Hk0. destruct Hk0 as [_ Hk0]. cbn in Hk0.
  apply orb_false_iff in Hk0. exact (proj1 Hk0).
Qed.

Lemma dict_set_fresh d k v :
  (forall k', In k' (map fst d) -> str_eqb k' k = false) ->
  dict_set d k v = d ++ [(k, v)].
Proof.
  induction d as [|[k0 v0] d IH]; intros Hfresh; cbn [dict_set app]; [reflexivity|].
  rewrite (Hfresh k0) by (left; reflexivity).
  rewrite IH; [reflexivity|]. intros k' Hin. apply Hfresh. right. exact Hin.
Qed.

Lemma dict_fold_distinct pairs : forall acc,
  distinct (map fst acc ++ map fst pairs) = true ->
  fold_left (fun d kv => dict_set d (fst kv) (snd kv)) pairs acc = acc ++ pairs.
Proof.
  induction pairs as [|[k v] pairs IH]; intros acc Hd; cbn [fold_left].
  - rewrite app_nil_r. reflexivity.
  - cbn [fst snd map] in *. rewrite dict_set_fresh.
    + rewrite IH; [rewrite <- app_assoc; reflexivity|].
      rewrite map_app, <- app_assoc. exact Hd.
    + apply (distinct_mid _ _ _ Hd).
Qed.

Lemma dict_of_pairs_distinct kvs :
  distinct (map fst kvs) = true -> dict_of_pairs kvs = PDict (as_items kvs).
Proof.
  intros Hd. unfold dict_of_pairs.
  rewrite (dict_fold_distinct kvs []) by exact Hd. reflexivity.
Qed.

Lemma follow_ok_after w c r :
  all_ws w -> follow_ok [c] = true -> follow_ok (w ++ c :: r) = true.
Proof.
  intros Hw Hc. destruct Hw as [|x w Hx _]; [exact Hc|].
  cbn. unfold is_ws in Hx. unfold is_digit. zbool_in Hx; zbool.
Qed.

Lemma encode_items_cons_inv f sep first v lst body :
  encode_items f sep first (v :: lst) = inr body ->
  exists t tail,
    f v = inr t /\ encode_items f sep false lst = inr tail
    /\ body = (if first then [] else sep) ++ t ++ tail.
Proof.
  cbn [encode_items]. destruct (f v) as [e|t]; [discriminate|]. cbn [rbind].
  destruct (encode_items f sep false lst) as [e|tail]; [discriminate|].
  cbn [rbind]. intros H. inversion H. eauto.
Qed.

Lemma encode_pairs_cons_inv float_repr f sep first k v dct body :
  encode_pairs float_repr f sep first ((PStr k, v) :: dct) = inr body ->
  exists t tail,
    f v = inr t /\ encode_pairs float_repr f sep false dct = inr tail
    /\ body = (if first then [] else sep)
              ++ encode_basestring_ascii k ++ key_separator ++ t ++ tail.
Proof.
  cbn [encode_pairs key_str rbind]. destruct (f v) as [e|t]; [discriminate|].
  cbn [rbind].
  destruct (encode_pairs float_repr f sep false dct) as [e|tail]; [discriminate|].
  cbn [rbind]. intros H. inversion H. eauto.
Qed.

Lemma skip_ws_ws c s : is_ws c = true -> skip_ws (c :: s) = skip_ws s.
Proof. intros H. cbn [skip_ws]. rewrite H. reflexivity. Qed.

Section ReadBack.

Variable float_repr : spec_float -> pystr.
Variable float_of_str : pystr -> spec_float.
Variable indent : option nat.

Local Abbreviation enc := (iterencode float_repr indent).
Local Abbreviation separator level :=
  (item_separator indent ++ newline_indent indent level).
Local Abbreviation reads := (reads_back float_repr indent).

Lemma separator_shape level :
  exists w, separator level = 44 :: w /\ all_ws w.
Proof.
  destruct (item_separator_shape indent) as (w & E & Hw). rewrite E.
  exists (w ++ newline_indent indent level). split; [reflexivity|].
  apply Forall_app; split; [exact Hw | apply newline_indent_ws].
Qed.

Lemma array_loop_reads scan bound level rest : forall items v0 t0 tail n values,
  Forall (reads scan bound (S level)) (v0 :: items) ->
  Forall (fun v => plain_json v = true) items ->
  enc v0 (S level) = inr t0 ->
  encode_items (fun v => enc v (S level)) (separator (S level)) false items
  = inr tail ->
  (List.length (t0 ++ tail) <= bound)%nat ->
  (List.length (t0 ++ tail) < n)%nat ->
  array_loop scan n (t0 ++ tail ++ newline_indent indent level ++ 93 :: rest) values
  = inr (PList (values ++ v0 :: items), rest).
Proof.
  induction items as [|v1 items IH];
    intros v0 t0 tail n values Hread Hplain Ht0 Htail Hbound Hn;
    (destruct n as [|n]; [lia|]); cbn [array_loop];
    pose proof (Forall_inv Hread) as Hv0;
    rewrite length_app in Hbound, Hn.
  - cbn in Htail. inversion Htail; subst tail. cbn [app].
    rewrite (Hv0 t0 _ Ht0) by
      (lia || (apply follow_ok_after; [apply newline_indent_ws | reflexivity])).
    cbn [rbind expecting_value].
    rewrite skip_ws_app by apply newline_indent_ws.
    rewrite skip_ws_head by reflexivity. cbn. reflexivity.
  - destruct (encode_items_cons_inv _ _ _ _ _ _ Htail)
      as (t1 & tail' & Ht1 & Htail' & ->).
    destruct (separator_shape (S level)) as (w & Esep & Hw).
    rewrite Esep in Hbound, Hn |- *. cbn [app List.length] in Hbound, Hn |- *.
    rewrite !length_app in Hbound, Hn.
    pose proof (iterencode_head float_repr indent v1 (S level) t1
                  (Forall_inv Hplain) Ht1) as Hhead.
    rewrite (Hv0 t0 _ Ht0) by (lia || reflexivity).
    cbn [rbind expecting_value].
    rewrite skip_ws_head by reflexivity.
    cbn [Z.eqb Pos.eqb]. rewrite <- !app_assoc.
    rewrite skip_ws_app by exact Hw.
    rewrite starts_value_skip by exact Hhead.
    rewrite (IH v1 t1 tail' n (values ++ [v0])).
    + rewrite <- app_assoc. reflexivity.
    + exact (Forall_inv_tail Hread).
    + exact (Forall_inv_tail Hplain).
    + exact Ht1.
    + exact Htail'.
    + rewrite length_app. lia.
    + rewrite length_app. lia.
Qed.

Lemma object_loop_reads scan bound level rest : forall kvs k0 v0 t0 tail n pairs,
  Forall (fun kv => reads scan bound (S level) (snd kv)) ((k0, v0) :: kvs) ->
  Forall (fun kv => str_ok (fst kv) = true) ((k0, v0) :: kvs) ->
  Forall (fun kv => plain_json (snd kv) = true) ((k0, v0) :: kvs) ->
  enc v0 (S level) = inr t0 ->
  encode_pairs float_repr (fun v => enc v (S level)) (separator (S level)) false
    (as_items kvs) = inr tail ->
  (List.length (t0 ++ tail) <= bound)%nat ->
  (List.length (t0 ++ tail) < n)%nat ->
  object_loop scan n
    (flat_map escape_char k0 ++ quote :: key_separator ++ t0 ++ tail
     ++ newline_indent indent level ++ 125 :: rest) pairs
  = inr (dict_of_pairs (pairs ++ (k0, v0) :: kvs), rest).
Proof.
  induction kvs as [|[k1 v1] kvs IH];
    intros k0 v0 t0 tail n pairs Hread Hkeys Hplain Ht0 Htail Hbound Hn;
    (destruct n as [|n]; [lia|]); cbn [object_loop];
    pose proof (Forall_inv Hread) as Hv0; cbn [snd] in Hv0;
    pose proof (Forall_inv Hkeys) as Hk0; cbn [fst] in Hk0;
    pose proof (iterencode_head float_repr indent v0 (S level) t0
                  (Forall_inv Hplain) Ht0) as Hhead0;
    rewrite length_app in Hbound, Hn;
    rewrite (scanstring_escaped k0 [] _ Hk0); cbn [rbind app];
    unfold key_separator; cbn [app];
    rewrite (skip_ws_head 58) by reflexivity; cbn [Z.eqb Pos.eqb];
    rewrite (skip_ws_ws 32) by reflexivity;
    rewrite starts_value_skip by exact Hhead0.
  - cbn in Htail. inversion Htail; subst tail. cbn [app].
    rewrite (Hv0 t0 _ Ht0) by
      (lia || (apply follow_ok_after; [apply newline_indent_ws | reflexivity])).
    cbn [rbind expecting_value].
    rewrite skip_ws_app by apply newline_indent_ws.
    rewrite skip_ws_head by reflexivity. cbn. reflexivity.
  - cbn [as_items map fst snd] in Htail. fold (as_items kvs) in Htail.
    destruct (encode_pairs_cons_inv _ _ _ _ _ _ _ _ Htail)
      as (t1 & tail' & Ht1 & Htail' & ->).
    destruct (separator_shape (S level)) as (w & Esep & Hw).
    rewrite Esep in Hbound, Hn |- *.
    unfold encode_basestring_ascii, key_separator in Hbound, Hn |- *.
    cbn [app List.length] in Hbound, Hn |- *.
    rewrite !length_app in Hbound, Hn. cbn [List.length] in Hbound, Hn.
    rewrite ?length_app in Hbound, Hn. cbn [List.length] in Hbound, Hn.
    rewrite (Hv0 t0 _ Ht0) by (lia || reflexivity).
    cbn [rbind expecting_value].
    rewrite skip_ws_head by reflexivity.
    cbn [Z.eqb Pos.eqb]. rewrite <- !app_assoc.
    rewrite skip_ws_app by exact Hw. cbn [app].
    rewrite skip_ws_head by reflexivity.
    rewrite Z.eqb_refl. rewrite <- !app_assoc. cbn [app].
    rewrite <- !app_assoc.
    pose proof (IH k1 v1 t1 tail' n (pairs ++ [(k0, v0)])) as IH'.
    unfold key_separator in IH'. cbn [app] in IH'.
    rewrite IH'.
    + rewrite <- app_assoc. reflexivity.
    + exact (Forall_inv_tail Hread).
    + exact (Forall_inv_tail Hkeys).
    + exact (Forall_inv_tail Hplain).
    + exact Ht1.
    + exact Htail'.
    + rewrite ?length_app in Hbound |- *. lia.
    + rewrite ?length_app in Hn |- *. lia.
Qed.

Lemma JSONArray_nonempty scan w t X :
  all_ws w -> starts_value t ->
  JSONArray scan (w ++ t ++ X)
  = array_loop scan (List.length (w ++ t ++ X)) (t ++ X) [].
Proof.
  intros Hw Ht. unfold JSONArray.
  rewrite skip_ws_app, starts_value_skip by assumption.
  destruct Ht as (c & t' & -> & Hc). cbn [app].
  unfold value_head in Hc. zbool_in Hc.
  all: destruct (is_ws c); try discriminate Hc; reflexivity.
Qed.

Lemma JSONObject_nonempty scan w X :
  all_ws w ->
  JSONObject scan (w ++ quote :: X)
  = object_loop scan (List.length (w ++ quote :: X)) X [].
Proof.
  intros Hw. unfold JSONObject.
  rewrite skip_ws_app, skip_ws_head by (assumption || reflexivity).
  rewrite Z.eqb_refl. reflexivity.
Qed.

Lemma scan_once_atom fuel c s :
  c <> quote -> c <> 123 -> c <> 91 ->
  scan_once float_of_str (S fuel) (c :: s) = scan_atom float_of_str (c :: s).
Proof.
  intros H1 H2 H3. cbn [scan_once].
  destruct (Z.eqb_spec c quote); [contradiction|].
  destruct (Z.eqb_spec c 123); [contradiction|].
  destruct (Z.eqb_spec c 91); [contradiction|]. reflexivity.
Qed.

Lemma scan_atom_number c s :
  c <> 110 -> c <> 116 -> c <> 102 ->
  scan_atom float_of_str (c :: s)
  = match scan_number float_of_str (c :: s) with
    | Some vr => inr vr
    | None => scan_constant (c :: s)
    end.
Proof.
  intros H1 H2 H3. unfold scan_atom.
  change (lit "null") with [110; 117; 108; 108].
  change (lit "true") with [116; 114; 117; 101].
  change (lit "false") with [102; 97; 108; 115; 101].
  cbn [strip_prefix].
  destruct (Z.eqb_spec 110 c); [congruence|].
  destruct (Z.eqb_spec 116 c); [congruence|].
  destruct (Z.eqb_spec 102 c); [congruence|]. reflexivity.
Qed.

Lemma int_repr_first n :
  exists c t', int_repr n = c :: t' /\ (is_digit c = true \/ c = 45).
Proof.
  destruct (int_repr_shape n) as (sign & c & tl & E & [-> | ->] & Hc & _).
  - exists c, tl. split; [exact E | left; exact Hc].
  - exists 45, (c :: tl). split; [exact E | right; reflexivity].
Qed.

Lemma scan_once_int fuel n rest :
  follow_ok rest = true ->
  scan_once float_of_str (S fuel) (int_repr n ++ rest) = inr (PInt n, rest).
Proof.
  intros Hrest. destruct (int_repr_first n) as (c & t' & E & Hc).
  assert (Hs : int_repr n ++ rest = c :: t' ++ rest) by (rewrite E; reflexivity).
  assert (Hne : c <> quote /\ c <> 123 /\ c <> 91 /\ c <> 110 /\ c <> 116 /\ c <> 102).
  { unfold quote. destruct Hc as [Hc | ->]; [|lia].
    unfold is_digit in Hc. zbool_in Hc. lia. }
  rewrite Hs, scan_once_atom, scan_atom_number by tauto.
  rewrite <- Hs, scan_number_int by exact Hrest. reflexivity.
Qed.

Lemma dict_view dct :
  forallb (fun kv => match kv with
                     | (PStr k, x) => str_ok k && plain_json x
                     | _ => false
                     end) dct = true ->
  exists kvs,
    dct = as_items kvs
    /\ Forall (fun kv => str_ok (fst kv) = true) kvs
    /\ Forall (fun kv => plain_json (snd kv) = true) kvs
    /\ map key_of dct = map fst kvs.
Proof.
  induction dct as [|[k x] dct IH]; intros H.
  - exists []. repeat split; constructor.
  - cbn [forallb] in H. apply andb_true_iff in H. destruct H as [Hkx Hrest].
    destruct k; try discriminate Hkx.
    apply andb_true_iff in Hkx. destruct Hkx as [Hk Hx].
    destruct (IH Hrest) as (kvs & -> & Hks & Hxs & Hmap).
    exists ((s, x) :: kvs). repeat split.
    + constructor; assumption.
    + constructor; assumption.
    + cbn [map]. rewrite Hmap. reflexivity.
Qed.

(** The scanner reads back the encoding of every value of [plain_json]. *)
Lemma scan_once_reads v :
  plain_json v = true ->
  forall fuel level, reads (scan_once float_of_str fuel) fuel level v.
Proof.
  induction v as [| b | n | x | s | lst IH | lst IH | dct IH | cls]
    using pyval_nested_ind;
    intros Hp fuel level t rest Ht Hlen Hrest; try discriminate Hp.
  - cbn in Ht. inversion Ht; subst t.
    destruct fuel; [cbn in Hlen; lia | reflexivity].
  - destruct b; cbn in Ht; inversion Ht; subst t;
      (destruct fuel; [cbn in Hlen; lia | reflexivity]).
  - cbn in Ht. inversion Ht; subst t.
    destruct fuel as [|f].
    + destruct (int_repr_first n) as (c & t' & E & _). rewrite E in Hlen.
      cbn in Hlen. lia.
    + apply scan_once_int, Hrest.
  - cbn in Ht. inversion Ht; subst t. unfold encode_basestring_ascii in *.
    destruct fuel as [|f]; [cbn in Hlen; lia|].
    cbn [scan_once app]. rewrite Z.eqb_refl.
    rewrite <- app_assoc. cbn [app].
    rewrite (scanstring_escaped s [] rest Hp). reflexivity.
  - cbn [plain_json] in Hp.
    destruct lst as [|v0 items].
    { cbn in Ht. inversion Ht; subst t.
      destruct fuel; [cbn in Hlen; lia | reflexivity]. }
    cbn [iterencode] in Ht.
    destruct (encode_items (fun v => enc v (S level)) (separator (S level)) true
                (v0 :: items)) as [e|body] eqn:Hbody; [discriminate|].
    cbn [rbind] in Ht. inversion Ht; subst t. clear Ht.
    destruct (encode_items_cons_inv _ _ _ _ _ _ Hbody)
      as (t0 & tail & Ht0 & Htail & ->).
    cbn [app] in Hlen |- *.
    destruct fuel as [|f]; [cbn in Hlen; lia|].
    assert (Hall : Forall (fun v => plain_json v = true) (v0 :: items)).
    { apply Forall_forall. intros v Hin.
      exact (proj1 (forallb_forall _ _) Hp v Hin). }
    pose proof (iterencode_head float_repr indent v0 (S level) t0
                  (Forall_inv Hall) Ht0) as Hhead.
    cbn [scan_once]. unfold quote. cbn [Z.eqb Pos.eqb].
    rewrite <- !app_assoc.
    rewrite JSONArray_nonempty by (apply newline_indent_ws || exact Hhead).
    rewrite <- ?app_assoc. cbn [app].
    apply (array_loop_reads (scan_once float_of_str f) f level rest
             items v0 t0 tail _ []).
    + apply Forall_forall. intros v Hin.
      apply (proj1 (Forall_forall _ _) IH v Hin).
      exact (proj1 (Forall_forall _ _) Hall v Hin).
    + exact (Forall_inv_tail Hall).
    + exact Ht0.
    + exact Htail.
    + len_lia.
    + len_lia.
  - cbn [plain_json] in Hp. apply andb_true_iff in Hp. destruct Hp as [Hp Hdist].
    destruct (dict_view dct Hp) as (kvs & -> & Hks & Hxs & Hmap).
    rewrite Hmap in Hdist.
    destruct kvs as [|[k0 v0] kvs].
    { cbn in Ht. inversion Ht; subst t.
      destruct fuel; [cbn in Hlen; lia | reflexivity]. }
    cbn [as_items map fst snd iterencode] in Ht. fold (as_items kvs) in Ht.
    destruct (encode_pairs float_repr (fun v => enc v (S level))
                (separator (S level)) true ((PStr k0, v0) :: as_items kvs))
      as [e|body] eqn:Hbody; [discriminate|].
    cbn [rbind] in Ht. inversion Ht; subst t. clear Ht.
    destruct (encode_pairs_cons_inv _ _ _ _ _ _ _ _ Hbody)
      as (t0 & tail & Ht0 & Htail & ->).
    unfold encode_basestring_ascii in Hlen |- *.
    cbn [app] in Hlen |- *.
    destruct fuel as [|f]; [cbn in Hlen; lia|].
    cbn [scan_once]. unfold quote at 1. cbn [Z.eqb Pos.eqb].
    rewrite <- !app_assoc. cbn [app].
    rewrite JSONObject_nonempty by apply newline_indent_ws.
    rewrite <- ?app_assoc. cbn [app]. rewrite <- ?app_assoc.
    rewrite (object_loop_reads (scan_once float_of_str f) f level rest
               kvs k0 v0 t0 tail).
    + cbn [app]. rewrite dict_of_pairs_distinct by exact Hdist. reflexivity.
    + unfold as_items in IH. rewrite Forall_map in IH.
      apply Forall_forall. intros kv Hin.
      apply (proj1 (Forall_forall _ _) IH kv Hin).
      exact (proj1 (Forall_forall _ _) Hxs kv Hin).
    + exact Hks.
    + exact Hxs.
    + exact Ht0.
    + exact Htail.
    + len_lia.
    + len_lia.
Qed.

End ReadBack.

(** ** [json.loads] after [json.dumps] *)

Lemma encode_iterencode float_repr indent v :
  encode float_repr indent v = iterencode float_repr indent v 0.
Proof. destruct v; reflexivity. Qed.

Lemma loads_dumps float_repr float_of_str indent v t :
  plain_json v = true ->
  json_dumps float_repr indent v = inr t ->
  json_loads float_of_str t = inr v.
Proof.
  intros Hp Hd. unfold json_dumps in Hd. rewrite encode_iterencode in Hd.
  pose proof (iterencode_head float_repr indent v 0 t Hp Hd) as Hhead.
  pose proof (scan_once_reads float_repr float_of_str indent v Hp
                (S (List.length t)) 0%nat t [] Hd ltac:(lia) eq_refl) as Hscan.
  rewrite app_nil_r in Hscan.
  assert (Hskip : skip_ws t = t).
  { rewrite <- (app_nil_r t) at 1. rewrite starts_value_skip by exact Hhead.
    apply app_nil_r. }
  assert (Hdec : decode float_of_str t = inr v).
  { unfold decode. rewrite Hskip, Hscan. reflexivity. }
  destruct Hhead as (c & t' & -> & Hc). unfold json_loads.
  unfold value_head in Hc. apply andb_true_iff in Hc. destruct Hc as [_ Hc].
  apply negb_true_iff in Hc. cbn [strip_prefix].
  rewrite Z.eqb_sym, Hc. exact Hdec.
Qed.

Lemma plain_json_value v : plain_json v = true -> json_value v = true.
Proof.
  induction v as [| b | n | x | s | lst IH | lst IH | dct IH | cls]
    using pyval_nested_ind; cbn [plain_json json_value]; intros Hp;
    try reflexivity; try discriminate Hp.
  - apply forallb_forall. intros v Hin.
    apply (proj1 (Forall_forall _ _) IH v Hin).
    exact (proj1 (forallb_forall _ _) Hp v Hin).
  - apply andb_true_iff in Hp. destruct Hp as [Hp _].
    apply forallb_forall. intros [k x] Hin.
    pose proof (proj1 (forallb_forall _ _) Hp _ Hin) as Hkx. cbn in Hkx.
    destruct k; try discriminate Hkx.
    apply andb_true_iff in Hkx. destruct Hkx as [_ Hx].
    cbn [is_str andb].
    exact (proj2 (proj1 (Forall_forall _ _) IH _ Hin) Hx).
Qed.

(** ** The handler's contract *)

(** C1: for every event that [json.dumps] can serialize and every context,
    the handler returns the fixed dictionary with status code 200 and, as
    body, the serialized form of the string Success; the result mentions
    neither the event nor the context. *)
Theorem handler_returns_fixed_response float_repr event context w text :
  json_dumps float_repr (Some 2%nat) event = inr text ->
  json_dumps float_repr None (PStr (lit "Success"))
  = inr (quote :: lit "Success" ++ [quote])
  /\ fst (lambda_handler float_repr event context w) = inr fixed_response.
Proof.
  intros Hd. split; [apply dumps_success|].
  rewrite (handler_ok _ _ context _ w Hd). reflexivity.
Qed.

Lemma handler_returns_fixed_response_witness :
  exists text,
    json_dumps sample_float_repr (Some 2%nat) s3_event = inr text
    /\ fst (lambda_handler sample_float_repr s3_event PNone empty_world)
       = inr fixed_response.
Proof.
  eexists. split; [reflexivity|].
  apply (handler_returns_fixed_response sample_float_repr s3_event PNone
           empty_world _ eq_refl).
Defined.




(** The same loss on two other serializable events: a tuple is read back
    as a list, and a high surrogate followed by a low surrogate is read back
    as the one code point they encode. *)
Example log_entry_tuple_not_read_back :
  let event := PDict [ (PStr (lit "k"), PTuple [PInt 1]) ] in
  let read := PDict [ (PStr (lit "k"), PList [PInt 1]) ] in
  exists text,
    json_dumps sample_float_repr (Some 2%nat) event = inr text
    /\ json_loads sample_float_of_str text = inr read
    /\ read <> event.
Proof.
  cbv zeta. eexists. split; [reflexivity|]. split; [reflexivity|]. discriminate.
Qed.

Example log_entry_surrogate_pair_not_read_back :
  let event := PDict [ (PStr (lit "k"), PStr [55357; 56832]) ] in
  let read := PDict [ (PStr (lit "k"), PStr [128512]) ] in
  exists text,
    json_dumps sample_float_repr (Some 2%nat) event = inr text
    /\ json_loads sample_float_of_str text = inr read
    /\ read <> event.
Proof.
  cbv zeta. eexists. split; [reflexivity|]. split; [reflexivity|]. discriminate.
Qed.



(** C4: for a serializable event the handler's only effect is one entry
    appended to standard output; the entry is there once line 7 has run,
    before the return statement builds the response, and neither the return
    statement nor anything else changes the state further. *)
Theorem log_is_only_effect float_repr event context w text :
  json_dumps float_repr (Some 2%nat) event = inr text ->
  exists w1 entry response,
    log_event float_repr event w = (inr tt, w1)
    /\ stdout w1 = stdout w ++ [entry]
    /\ globals w1 = globals w
    /\ success_response float_repr w1 = (inr response, w1)
    /\ lambda_handler float_repr event context w = (inr response, w1).
Proof.
  intros Hd. eexists _, _, _. split; [exact (log_event_ok _ _ _ w Hd)|].
  split; [reflexivity|]. split; [reflexivity|].
  split; [apply success_response_run|]. exact (handler_ok _ _ context _ w Hd).
Qed.

Lemma log_is_only_effect_witness :
  exists text,
    json_dumps sample_float_repr (Some 2%nat) s3_event = inr text
    /\ exists w1 entry response,
         log_event sample_float_repr s3_event empty_world = (inr tt, w1)
         /\ stdout w1 = stdout empty_world ++ [entry]
         /\ globals w1 = globals empty_world
         /\ success_response sample_float_repr w1 = (inr response, w1)
         /\ lambda_handler sample_float_repr s3_event PNone empty_world
            = (inr response, w1).
Proof.
  eexists. split; [reflexivity|].
  apply (log_is_only_effect sample_float_repr s3_event PNone empty_world _ eq_refl).
Defined.

(** C5: for the empty dictionary and any context the handler returns the
    dictionary with status code 200 and, as body, the nine characters of
    Success between double quotes. *)
Theorem empty_event_response float_repr context w :
  fst (lambda_handler float_repr (PDict []) context w)
  = inr (PDict [ (PStr (lit "statusCode"), PInt 200);
                 (PStr (lit "body"),
                  PStr [34; 83; 117; 99; 99; 101; 115; 115; 34]) ]).
Proof. reflexivity. Qed.

(** C6: two invocations with the same serializable event, whatever the
    contexts and the states they start from, return the same response and
    append the same entry. *)
Theorem repeated_invocation_same_output float_repr event c1 c2 wa wb text :
  json_dumps float_repr (Some 2%nat) event = inr text ->
  fst (lambda_handler float_repr event c1 wa)
  = fst (lambda_handler float_repr event c2 wb)
  /\ exists entry,
       stdout (snd (lambda_handler float_repr event c1 wa)) = stdout wa ++ [entry]
       /\ stdout (snd (lambda_handler float_repr event c2 wb)) = stdout wb ++ [entry].
Proof.
  intros Hd.
  rewrite (handler_ok _ _ c1 _ wa Hd), (handler_ok _ _ c2 _ wb Hd).
  split; [reflexivity|]. eexists. split; reflexivity.
Qed.

Lemma repeated_invocation_same_output_witness :
  let w1 := snd (lambda_handler sample_float_repr s3_event PNone empty_world) in
  exists text,
    json_dumps sample_float_repr (Some 2%nat) s3_event = inr text
    /\ fst (lambda_handler sample_float_repr s3_event PNone empty_world)
       = fst (lambda_handler sample_float_repr s3_event (PInt 7) w1)
    /\ exists entry,
         stdout w1 = stdout empty_world ++ [entry]
         /\ stdout (snd (lambda_handler sample_float_repr s3_event (PInt 7) w1))
            = stdout w1 ++ [entry].
Proof.
  cbv zeta. eexists. split; [reflexivity|].
  apply (repeated_invocation_same_output sample_float_repr s3_event PNone (PInt 7)
           empty_world
           (snd (lambda_handler sample_float_repr s3_event PNone empty_world))
           _ eq_refl).
Defined.

(** C7: whenever the handler returns, the result is a dictionary with
    exactly the two keys statusCode and body, the first mapped to an
    integer and the second to a string. *)
Theorem response_shape float_repr event context w response :
  fst (lambda_handler float_repr event context w) = inr response ->
  exists (code : Z) (body : pystr),
    response = PDict [ (PStr (lit "statusCode"), PInt code);
                       (PStr (lit "body"), PStr body) ].
Proof.
  destruct (json_dumps float_repr (Some 2%nat) event) as [e|text] eqn:Hd.
  - rewrite (handler_raise _ _ context _ w Hd). discriminate.
  - rewrite (handler_ok _ _ context _ w Hd). cbn [fst].
    intros H. inversion H. eexists _, _. reflexivity.
Qed.

Lemma response_shape_witness :
  fst (lambda_handler sample_float_repr s3_event PNone empty_world)
  = inr fixed_response
  /\ exists (code : Z) (body : pystr),
       fixed_response = PDict [ (PStr (lit "statusCode"), PInt code);
                                (PStr (lit "body"), PStr body) ].
Proof.
  split; [reflexivity|].
  apply (response_shape sample_float_repr s3_event PNone empty_world
           fixed_response eq_refl).
Defined.




(** C10: when [json.dumps] raises, nothing has been written: the state
    after the call is the state before it. *)
Theorem failed_serialization_writes_nothing float_repr event context w e :
  json_dumps float_repr (Some 2%nat) event = inl e ->
  snd (lambda_handler float_repr event context w) = w.
Proof.
  intros Hd. rewrite (handler_raise _ _ context _ w Hd). reflexivity.
Qed.

Lemma failed_serialization_writes_nothing_witness :
  exists e,
    json_dumps sample_float_repr (Some 2%nat) set_event = inl e
    /\ snd (lambda_handler sample_float_repr set_event PNone empty_world)
       = empty_world.
Proof.
  eexists. split; [reflexivity|].
  apply (failed_serialization_writes_nothing sample_float_repr set_event PNone
           empty_world _ eq_refl).
Defined.

(** ** Further properties of the handler *)

(** *** When the handler returns *)

Section Serializable.

Variable float_repr : spec_float -> pystr.
Variable indent : option nat.

Lemma key_str_total k :
  key_ok k = true -> exists ks, key_str float_repr k = inr ks.
Proof.
  destruct k as [| [] | | | | | | |]; cbn; intros H;
    try discriminate H; eexists; reflexivity.
Qed.

Lemma key_str_ok k ks : key_str float_repr k = inr ks -> key_ok k = true.
Proof. destruct k; cbn; intros H; try discriminate H; reflexivity. Qed.

Lemma encode_pairs_keys_total (f : pyval -> res pystr) sep dct :
  Forall (fun kv => key_ok (fst kv) = true /\ exists t, f (snd kv) = inr t) dct ->
  forall first,
  exists body, encode_pairs float_repr f sep first dct = inr body.
Proof.
  induction 1 as [|[k v] dct [Hk [t Ht]] _ IH]; intros first; cbn [encode_pairs].
  - eexists; reflexivity.
  - cbn [fst snd] in Hk, Ht. destruct (key_str_total k Hk) as [ks Hks].
    rewrite Hks, Ht. cbn [rbind]. destruct (IH false) as [body Hb].
    rewrite Hb. cbn [rbind]. eexists; reflexivity.
Qed.

Lemma encode_items_ok (f : pyval -> res pystr) sep lst : forall first body,
  encode_items f sep first lst = inr body ->
  Forall (fun v => exists t, f v = inr t) lst.
Proof.
  induction lst as [|v lst IH]; intros first body H; [constructor|].
  destruct (encode_items_cons_inv _ _ _ _ _ _ H) as (t & tail & Ht & Htail & _).
  constructor; [eauto | exact (IH _ _ Htail)].
Qed.

Lemma encode_pairs_ok (f : pyval -> res pystr) sep dct : forall first body,
  encode_pairs float_repr f sep first dct = inr body ->
  Forall (fun kv => key_ok (fst kv) = true /\ exists t, f (snd kv) = inr t) dct.
Proof.
  induction dct as [|[k v] dct IH]; intros first body H; [constructor|].
  cbn [encode_pairs] in H.
  destruct (key_str float_repr k) as [e|ks] eqn:Hk; [discriminate H|].
  cbn [rbind] in H. destruct (f v) as [e|t] eqn:Hv; [discriminate H|].
  cbn [rbind] in H.
  destruct (encode_pairs float_repr f sep false dct) as [e|tail] eqn:Ht;
    [discriminate H|].
  constructor; [|exact (IH _ _ Ht)].
  cbn [fst snd]. split; [exact (key_str_ok _ _ Hk) | eauto].
Qed.

Lemma iterencode_serializable v :
  serializable v = true ->
  forall level, exists t, iterencode float_repr indent v level = inr t.
Proof.
  induction v as [| b | n | x | s | lst IH | lst IH | dct IH | cls]
    using pyval_nested_ind; intros Hv level;
    try (cbn; eexists; reflexivity); try discriminate Hv.
  - destruct b; cbn; eexists; reflexivity.
  - cbn [serializable] in Hv. destruct lst as [|v0 lst0]; [cbn; eexists; reflexivity|].
    destruct (encode_items_total
                (fun v => iterencode float_repr indent v (S level))
                (item_separator indent ++ newline_indent indent (S level))
                (v0 :: lst0)) with (first := true) as [body Hb].
    { rewrite forallb_forall in Hv. rewrite Forall_forall in IH |- *.
      intros v Hin. apply (IH v Hin (Hv v Hin)). }
    cbn [iterencode]. rewrite Hb. cbn [rbind]. eexists; reflexivity.
  - cbn [serializable] in Hv. destruct lst as [|v0 lst0]; [cbn; eexists; reflexivity|].
    destruct (encode_items_total
                (fun v => iterencode float_repr indent v (S level))
                (item_separator indent ++ newline_indent indent (S level))
                (v0 :: lst0)) with (first := true) as [body Hb].
    { rewrite forallb_forall in Hv. rewrite Forall_forall in IH |- *.
      intros v Hin. apply (IH v Hin (Hv v Hin)). }
    cbn [iterencode]. rewrite Hb. cbn [rbind]. eexists; reflexivity.
  - cbn [serializable] in Hv. destruct dct as [|kv0 dct0]; [cbn; eexists; reflexivity|].
    destruct (encode_pairs_keys_total
                (fun v => iterencode float_repr indent v (S level))
                (item_separator indent ++ newline_indent indent (S level))
                (kv0 :: dct0)) with (first := true) as [body Hb].
    { rewrite forallb_forall in Hv. rewrite Forall_forall in IH |- *.
      intros [k v] Hin. specialize (Hv _ Hin). specialize (IH _ Hin).
      cbn in Hv, IH |- *. apply andb_true_iff in Hv. destruct Hv as [Hk Hx].
      split; [exact Hk|]. apply (proj2 IH Hx). }
    cbn [iterencode]. rewrite Hb. cbn [rbind]. eexists; reflexivity.
Qed.

Lemma iterencode_ok_serializable v :
  forall level t,
    iterencode float_repr indent v level = inr t -> serializable v = true.
Proof.
  induction v as [| b | n | x | s | lst IH | lst IH | dct IH | cls]
    using pyval_nested_ind; intros level t H; try reflexivity.
  - cbn [serializable]. destruct lst as [|v0 lst0]; [reflexivity|].
    cbn [iterencode] in H.
    match type of H with rbind ?r _ = _ => destruct r as [e|body] eqn:Hb end;
      [discriminate H|].
    pose proof (encode_items_ok _ _ _ _ _ Hb) as Hall.
    apply forallb_forall. intros v Hin.
    destruct (proj1 (Forall_forall _ _) Hall v Hin) as [tv Hv].
    exact (proj1 (Forall_forall _ _) IH v Hin _ _ Hv).
  - cbn [serializable]. destruct lst as [|v0 lst0]; [reflexivity|].
    cbn [iterencode] in H.
    match type of H with rbind ?r _ = _ => destruct r as [e|body] eqn:Hb end;
      [discriminate H|].
    pose proof (encode_items_ok _ _ _ _ _ Hb) as Hall.
    apply forallb_forall. intros v Hin.
    destruct (proj1 (Forall_forall _ _) Hall v Hin) as [tv Hv].
    exact (proj1 (Forall_forall _ _) IH v Hin _ _ Hv).
  - cbn [serializable]. destruct dct as [|kv0 dct0]; [reflexivity|].
    cbn [iterencode] in H.
    match type of H with rbind ?r _ = _ => destruct r as [e|body] eqn:Hb end;
      [discriminate H|].
    pose proof (encode_pairs_ok _ _ _ _ _ Hb) as Hall.
    apply forallb_forall. intros [k v] Hin.
    destruct (proj1 (Forall_forall _ _) Hall _ Hin) as [Hk [tv Hv]].
    cbn [fst snd] in Hk, Hv. rewrite Hk. cbn [andb].
    exact (proj2 (proj1 (Forall_forall _ _) IH _ Hin) _ _ Hv).
  - cbn in H. discriminate H.
Qed.

Lemma json_dumps_ok_iff v :
  serializable v = true <-> exists t, json_dumps float_repr indent v = inr t.
Proof.
  unfold json_dumps. rewrite encode_iterencode. split.
  - intros Hv. exact (iterencode_serializable v Hv 0%nat).
  - intros [t Ht]. exact (iterencode_ok_serializable v _ _ Ht).
Qed.

End Serializable.


(** *** The characters of the log *)

Lemma log_text_app a b : log_text a -> log_text b -> log_text (a ++ b).
Proof. intros Ha Hb. apply Forall_app; split; assumption. Qed.

Lemma digit_log_char c : is_digit c = true -> log_char c = true.
Proof. unfold is_digit, log_char. intros H. zbool_in H; zbool. Qed.

Lemma int_repr_log_text n : log_text (int_repr n).
Proof.
  destruct (int_repr_shape n) as (sign & c & tl & -> & Hs & Hc & _ & Htl).
  apply log_text_app.
  - destruct Hs as [-> | ->]; repeat constructor.
  - constructor; [exact (digit_log_char c Hc)|].
    eapply Forall_impl; [|exact Htl]. exact digit_log_char.
Qed.

Lemma hexdigit_log_char x : log_char (hexdigit (Z.land x 15)) = true.
Proof.
  change 15 with (Z.ones 4). rewrite Z.land_ones by lia.
  pose proof (Z.mod_pos_bound x (2 ^ 4) ltac:(lia)) as Hb.
  change (2 ^ 4) with 16 in *. set (d := x mod 16) in *.
  unfold hexdigit, log_char. zbool.
Qed.

Lemma escape_u_log_text n : log_text (escape_u n).
Proof.
  unfold escape_u, format_04x.
  repeat (constructor; [try reflexivity; try apply hexdigit_log_char|]).
  constructor.
Qed.

Lemma escape_char_log_text c : log_text (escape_char c).
Proof.
  unfold escape_char. destruct (needs_escape c) eqn:Hne.
  - unfold replace.
    repeat match goal with
           | |- log_text (if ?b then _ else _) => destruct b
           end;
      first [ apply escape_u_log_text
            | cbv zeta; apply log_text_app; apply escape_u_log_text
            | repeat constructor ].
  - constructor; [|constructor].
    unfold needs_escape, quote, backslash in Hne. unfold log_char.
    zbool_in Hne; zbool.
Qed.

Lemma encode_basestring_ascii_log_text s : log_text (encode_basestring_ascii s).
Proof.
  unfold encode_basestring_ascii. constructor; [reflexivity|].
  apply log_text_app; [|repeat constructor].
  induction s as [|c s IH]; cbn [flat_map]; [constructor|].
  apply log_text_app; [apply escape_char_log_text | exact IH].
Qed.

Lemma str_mul_log_text t n : log_text t -> log_text (str_mul t n).
Proof.
  intros Ht. induction n as [|n IH]; cbn [str_mul]; [constructor|].
  apply log_text_app; assumption.
Qed.

Section LogText.

Variable float_repr : spec_float -> pystr.
Hypothesis float_repr_text : forall x, log_text (float_repr x).
Variable indent : option nat.

Lemma floatstr_log_text x : log_text (floatstr float_repr x).
Proof.
  destruct x as [s | [] | | s m e]; cbn [floatstr];
    try apply float_repr_text; repeat constructor.
Qed.

Lemma newline_indent_log_text level : log_text (newline_indent indent level).
Proof.
  unfold newline_indent. destruct indent as [n|]; [|constructor].
  constructor; [reflexivity|].
  apply str_mul_log_text, str_mul_log_text. repeat constructor.
Qed.

Lemma item_separator_log_text : log_text (item_separator indent).
Proof. unfold item_separator. destruct indent; repeat constructor. Qed.

Lemma encode_items_log_text (f : pyval -> res pystr) sep lst :
  log_text sep ->
  Forall (fun v => forall t, f v = inr t -> log_text t) lst ->
  forall first body,
    encode_items f sep first lst = inr body -> log_text body.
Proof.
  intros Hsep. induction 1 as [|v lst Hv _ IH]; intros first body H.
  - cbn in H. inversion H. constructor.
  - destruct (encode_items_cons_inv _ _ _ _ _ _ H) as (t & tail & Ht & Htail & ->).
    apply log_text_app; [destruct first; [constructor | exact Hsep]|].
    apply log_text_app; [exact (Hv _ Ht) | exact (IH _ _ Htail)].
Qed.

Lemma encode_pairs_log_text (f : pyval -> res pystr) sep dct :
  log_text sep ->
  Forall (fun kv => forall t, f (snd kv) = inr t -> log_text t) dct ->
  forall first body,
    encode_pairs float_repr f sep first dct = inr body -> log_text body.
Proof.
  intros Hsep. induction 1 as [|[k v] dct Hv _ IH]; intros first body H.
  - cbn in H. inversion H. constructor.
  - cbn [encode_pairs] in H.
    destruct (key_str float_repr k) as [e|ks]; [discriminate H|].
    cbn [rbind] in H. destruct (f v) as [e|t] eqn:Ht; [discriminate H|].
    cbn [rbind] in H.
    destruct (encode_pairs float_repr f sep false dct) as [e|tail] eqn:Htail;
      [discriminate H|].
    cbn [rbind] in H. injection H as <-.
    apply (log_text_app (if first then [] else sep));
      [destruct first; [constructor | exact Hsep]|].
    apply (log_text_app (encode_basestring_ascii ks));
      [apply encode_basestring_ascii_log_text|].
    apply (log_text_app key_separator); [repeat constructor|].
    apply log_text_app; [exact (Hv _ Ht) | exact (IH _ _ Htail)].
Qed.

Lemma iterencode_log_text v :
  forall level t, iterencode float_repr indent v level = inr t -> log_text t.
Proof.
  assert (Hsep : forall level,
            log_text (item_separator indent ++ newline_indent indent level)).
  { intros level. apply log_text_app;
      [apply item_separator_log_text | apply newline_indent_log_text]. }
  assert (Hwrap : forall open close level body,
            log_char open = true -> log_char close = true -> log_text body ->
            log_text ([open] ++ newline_indent indent (S level) ++ body
                      ++ newline_indent indent level ++ [close])).
  { intros open close level body Ho Hc Hb.
    apply log_text_app; [repeat constructor; exact Ho|].
    apply log_text_app; [apply newline_indent_log_text|].
    apply log_text_app; [exact Hb|].
    apply log_text_app; [apply newline_indent_log_text|].
    repeat constructor; exact Hc. }
  induction v as [| b | n | x | s | lst IH | lst IH | dct IH | cls]
    using pyval_nested_ind; intros level t H.
  - cbn in H. inversion H. repeat constructor.
  - destruct b; cbn in H; inversion H; repeat constructor.
  - cbn in H. inversion H. apply int_repr_log_text.
  - cbn in H. inversion H. apply floatstr_log_text.
  - cbn in H. inversion H. apply encode_basestring_ascii_log_text.
  - destruct lst as [|v0 lst0]; [cbn in H; inversion H; repeat constructor|].
    cbn [iterencode] in H.
    match type of H with rbind ?r _ = _ => destruct r as [e|body] eqn:Hb end;
      [discriminate H|].
    cbn [rbind] in H. injection H as <-. apply Hwrap; try reflexivity.
    eapply encode_items_log_text; [apply Hsep | | exact Hb].
    eapply Forall_impl; [|exact IH]. cbn. intros v Hv tv. apply Hv.
  - destruct lst as [|v0 lst0]; [cbn in H; inversion H; repeat constructor|].
    cbn [iterencode] in H.
    match type of H with rbind ?r _ = _ => destruct r as [e|body] eqn:Hb end;
      [discriminate H|].
    cbn [rbind] in H. injection H as <-. apply Hwrap; try reflexivity.
    eapply encode_items_log_text; [apply Hsep | | exact Hb].
    eapply Forall_impl; [|exact IH]. cbn. intros v Hv tv. apply Hv.
  - destruct dct as [|kv0 dct0]; [cbn in H; inversion H; repeat constructor|].
    cbn [iterencode] in H.
    match type of H with rbind ?r _ = _ => destruct r as [e|body] eqn:Hb end;
      [discriminate H|].
    cbn [rbind] in H. injection H as <-. apply Hwrap; try reflexivity.
    eapply encode_pairs_log_text; [apply Hsep | | exact Hb].
    eapply Forall_impl; [|exact IH]. cbn. intros kv [_ Hv] tv. apply Hv.
  - cbn in H. discriminate H.
Qed.

Lemma json_dumps_log_text v t :
  json_dumps float_repr indent v = inr t -> log_text t.
Proof.
  unfold json_dumps. rewrite encode_iterencode. apply iterencode_log_text.
Qed.

End LogText.

(** X2: when [float.__repr__] writes printable ASCII, whatever the event,
    every entry the handler adds to standard output is made of printable
    ASCII characters and newlines only, non-ASCII text of the event
    included. *)
Theorem log_entry_is_ascii float_repr event context w entry :
  (forall x, log_text (float_repr x)) ->
  In entry (stdout (snd (lambda_handler float_repr event context w))) ->
  In entry (stdout w) \/ log_text entry.
Proof.
  intros Hrepr Hin.
  destruct (json_dumps float_repr (Some 2%nat) event) as [e|text] eqn:Hd.
  - rewrite (handler_raise _ _ context _ w Hd) in Hin. left. exact Hin.
  - rewrite (handler_ok _ _ context _ w Hd) in Hin. cbn [snd stdout] in Hin.
    apply in_app_or in Hin. destruct Hin as [Hin | [<- | []]]; [left; exact Hin|].
    right. apply log_text_app; [repeat constructor|].
    apply log_text_app; [repeat constructor|].
    apply log_text_app; [|repeat constructor].
    exact (json_dumps_log_text float_repr Hrepr _ _ _ Hd).
Qed.

Lemma log_entry_is_ascii_witness :
  let event := PDict [ (PStr [233; 128512], PStr [26085; 26412; 10]) ] in
  (forall x, log_text (sample_float_repr x))
  /\ exists entry,
       stdout (snd (lambda_handler sample_float_repr event PNone empty_world))
       = [entry]
       /\ log_text entry.
Proof.
  cbv zeta.
  assert (Hrepr : forall x, log_text (sample_float_repr x))
    by (intros x; repeat constructor).
  split; [exact Hrepr|]. eexists. split; [reflexivity|].
  destruct (log_entry_is_ascii sample_float_repr
              (PDict [ (PStr [233; 128512], PStr [26085; 26412; 10]) ])
              PNone empty_world _ Hrepr (or_introl eq_refl)) as [[] | H].
  exact H.
Defined.

(** *** What the log keeps of an event *)

Lemma escape_char_surrogate c :
  is_high c = true \/ is_low c = true -> escape_char c = escape_u c.
Proof.
  intros Hc. unfold escape_char, needs_escape, replace, quote, backslash.
  unfold is_high, is_low in Hc.
  destruct Hc as [Hc | Hc]; zbool_in Hc; zbool.
Qed.

Lemma escape_char_joined hi lo :
  is_high hi = true -> is_low lo = true ->
  escape_char (65536 + Z.lor (Z.shiftl (hi - 55296) 10) (lo - 56320))
  = escape_u hi ++ escape_u lo.
Proof.
  intros Hhi Hlo.
  assert (Rhi : 0 <= hi - 55296 < 1024) by (unfold is_high in Hhi; zbool_in Hhi; lia).
  assert (Rlo : 0 <= lo - 56320 < 2 ^ 10)
    by (change (2 ^ 10) with 1024; unfold is_low in Hlo; zbool_in Hlo; lia).
  rewrite Z.shiftl_mul_pow2 by lia.
  rewrite lor_disjoint by (lia || exact Rlo).
  set (n := (hi - 55296) * 2 ^ 10 + (lo - 56320)).
  assert (Hq : n / 2 ^ 10 = hi - 55296).
  { unfold n. rewrite Z.div_add_l by lia. rewrite Z.div_small by exact Rlo. lia. }
  assert (Hr : n mod 2 ^ 10 = lo - 56320).
  { unfold n. rewrite Z.add_comm, Z.mod_add by lia. apply Z.mod_small, Rlo. }
  assert (Hn : 0 <= n < 1048576).
  { unfold n. change (2 ^ 10) with 1024 in *. lia. }
  assert (Ehi : Z.lor 55296 (Z.land (Z.shiftr n 10) 1023) = hi).
  { rewrite Z.shiftr_div_pow2 by lia. change 1023 with (Z.ones 10).
    rewrite Z.land_ones by lia. rewrite Hq.
    rewrite Z.mod_small by (change (2 ^ 10) with 1024; lia).
    change 55296 with (54 * 2 ^ 10).
    rewrite lor_disjoint by (change (2 ^ 10) with 1024; lia).
    change (2 ^ 10) with 1024. lia. }
  assert (Elo : Z.lor 56320 (Z.land n 1023) = lo).
  { change 1023 with (Z.ones 10). rewrite Z.land_ones by lia. rewrite Hr.
    change 56320 with (55 * 2 ^ 10).
    rewrite lor_disjoint by (lia || exact Rlo).
    change (2 ^ 10) with 1024. lia. }
  unfold escape_char, needs_escape, replace, quote, backslash.
  replace (65536 + n - 65536) with n by lia.
  cbv zeta. rewrite Ehi, Elo. zbool.
Qed.

Lemma join_surrogates_cons c lo s :
  join_surrogates (c :: lo :: s)
  = if is_high c && is_low lo
    then (65536 + Z.lor (Z.shiftl (c - 55296) 10) (lo - 56320))
         :: join_surrogates s
    else c :: join_surrogates (lo :: s).
Proof. reflexivity. Qed.

Lemma escape_join_surrogates s :
  flat_map escape_char (join_surrogates s) = flat_map escape_char s.
Proof.
  assert (H : forall n s, (List.length s <= n)%nat ->
            flat_map escape_char (join_surrogates s) = flat_map escape_char s).
  { clear s. induction n as [|n IH]; intros s Hlen.
    - destruct s; [reflexivity | cbn in Hlen; lia].
    - destruct s as [|c [|lo s'']]; try reflexivity.
      rewrite join_surrogates_cons.
      destruct (is_high c) eqn:Hhi; [destruct (is_low lo) eqn:Hlo|]; cbn [andb].
      + cbn [flat_map]. rewrite escape_char_joined by assumption.
        rewrite IH by (cbn in Hlen; lia).
        rewrite (escape_char_surrogate c) by (left; exact Hhi).
        rewrite (escape_char_surrogate lo) by (right; exact Hlo).
        rewrite <- app_assoc. reflexivity.
      + cbn [flat_map]. rewrite (IH (lo :: s'')) by (cbn in Hlen |- *; lia).
        reflexivity.
      + cbn [flat_map]. rewrite (IH (lo :: s'')) by (cbn in Hlen |- *; lia).
        reflexivity. }
  exact (H (List.length s) s (le_n _)).
Qed.

Lemma encode_join_surrogates s :
  encode_basestring_ascii (join_surrogates s) = encode_basestring_ascii s.
Proof.
  unfold encode_basestring_ascii. rewrite escape_join_surrogates. reflexivity.
Qed.

Lemma join_surrogates_ok s : str_ok s = true -> join_surrogates s = s.
Proof.
  induction s as [|c s' IH]; intros Hok; [reflexivity|].
  destruct (str_ok_cons _ _ Hok) as (_ & Hpair & Hok').
  destruct s' as [|lo s'']; [reflexivity|].
  rewrite join_surrogates_cons.
  destruct (is_high c) eqn:Hhi; cbn [andb].
  - rewrite (Hpair eq_refl). rewrite (IH Hok'). reflexivity.
  - rewrite (IH Hok'). reflexivity.
Qed.

Section Image.

Variable float_repr : spec_float -> pystr.
Variable indent : option nat.

Lemma key_str_image k :
  match key_str float_repr k with
  | inl e => key_str float_repr (image_key k) = inl e
  | inr ks =>
      exists ks', key_str float_repr (image_key k) = inr ks'
                  /\ encode_basestring_ascii ks' = encode_basestring_ascii ks
  end.
Proof.
  destruct k as [| [] | n | x | s | lst | lst | dct | cls]; cbn;
    try reflexivity; try (eexists; split; reflexivity).
  eexists. split; [reflexivity | apply encode_join_surrogates].
Qed.

Lemma encode_items_image (f : pyval -> res pystr) sep lst :
  Forall (fun v => f (json_image v) = f v) lst ->
  forall first,
    encode_items f sep first (map json_image lst) = encode_items f sep first lst.
Proof.
  induction 1 as [|v lst Hv _ IH]; intros first; cbn [map encode_items];
    [reflexivity|].
  rewrite Hv, IH. reflexivity.
Qed.

Lemma encode_pairs_image (f : pyval -> res pystr) sep dct :
  Forall (fun kv => f (json_image (snd kv)) = f (snd kv)) dct ->
  forall first,
    encode_pairs float_repr f sep first
      (map (fun kv => match kv with
                      | (k, x) => (image_key k, json_image x)
                      end) dct)
    = encode_pairs float_repr f sep first dct.
Proof.
  induction 1 as [|[k v] dct Hv _ IH]; intros first; cbn [map encode_pairs];
    [reflexivity|].
  cbn [snd] in Hv. rewrite Hv, IH.
  pose proof (key_str_image k) as Hk.
  destruct (key_str float_repr k) as [e|ks].
  - rewrite Hk. reflexivity.
  - destruct Hk as (ks' & -> & Henc). cbn [rbind]. rewrite Henc. reflexivity.
Qed.

(** A value and its image have the same JSON text, and fail alike. *)
Lemma iterencode_image v :
  forall level,
    iterencode float_repr indent (json_image v) level
    = iterencode float_repr indent v level.
Proof.
  induction v as [| b | n | x | s | lst IH | lst IH | dct IH | cls]
    using pyval_nested_ind; intros level; try reflexivity.
  - cbn [json_image iterencode]. rewrite encode_join_surrogates. reflexivity.
  - cbn [json_image iterencode]. destruct lst as [|v0 lst0]; [reflexivity|].
    rewrite encode_items_image.
    + reflexivity.
    + eapply Forall_impl; [|exact IH]. cbn. intros v Hv. apply Hv.
  - cbn [json_image iterencode]. destruct lst as [|v0 lst0]; [reflexivity|].
    rewrite encode_items_image.
    + reflexivity.
    + eapply Forall_impl; [|exact IH]. cbn. intros v Hv. apply Hv.
  - cbn [json_image iterencode]. destruct dct as [|kv0 dct0]; [reflexivity|].
    rewrite encode_pairs_image.
    + destruct kv0. reflexivity.
    + eapply Forall_impl; [|exact IH]. cbn. intros kv [_ Hv]. apply Hv.
Qed.

Lemma json_dumps_image v :
  json_dumps float_repr indent (json_image v) = json_dumps float_repr indent v.
Proof. unfold json_dumps. rewrite !encode_iterencode. apply iterencode_image. Qed.

End Image.

(** On the values of [plain_json] nothing is lost. *)
Lemma json_image_plain v : plain_json v = true -> json_image v = v.
Proof.
  induction v as [| b | n | x | s | lst IH | lst IH | dct IH | cls]
    using pyval_nested_ind; cbn [plain_json json_image]; intros Hp;
    try reflexivity; try discriminate Hp.
  - rewrite (join_surrogates_ok s Hp). reflexivity.
  - f_equal. rewrite <- (map_id lst) at 2. apply map_ext_in. intros v Hin.
    apply (proj1 (Forall_forall _ _) IH v Hin).
    exact (proj1 (forallb_forall _ _) Hp v Hin).
  - apply andb_true_iff in Hp. destruct Hp as [Hp _].
    f_equal. rewrite <- (map_id dct) at 2. apply map_ext_in. intros [k x] Hin.
    pose proof (proj1 (forallb_forall _ _) Hp _ Hin) as Hkx. cbn in Hkx.
    destruct k; try discriminate Hkx.
    apply andb_true_iff in Hkx. destruct Hkx as [Hk Hx].
    pose proof (proj2 (proj1 (Forall_forall _ _) IH _ Hin) Hx) as Hx'.
    cbn [snd] in Hx'.
    cbn [image_key]. rewrite (join_surrogates_ok _ Hk), Hx'. reflexivity.
Qed.

Lemma handler_image float_repr event context w :
  lambda_handler float_repr (json_image event) context w
  = lambda_handler float_repr event context w.
Proof.
  unfold lambda_handler, bind, log_event, call.
  rewrite json_dumps_image. reflexivity.
Qed.






